(** * hrtf_mesh_grading: the command-line driver of the mesh grading example

    A shallow embedding of [examples/hrtf_mesh_grading.cpp]: the argument
    loop over [getopt], the validity check, the defaulting of the optional
    parameters, the verbose echo, and the read / remesh / write sequence with
    its exit codes.  Numbers are IEEE 754 data: a C [float] is a valid
    binary32 datum, a C [double] a binary64 datum. *)

From Stdlib Require Import ZArith QArith Lia List String Ascii Bool.
From Stdlib Require Import Floats.SpecFloat.
Import ListNotations.

Set Implicit Arguments.

(** ** IEEE 754 numbers as the program uses them *)

Module IEEE.

Definition prec32 : Z := 24.
Definition emax32 : Z := 128.
Definition prec64 : Z := 53.
Definition emax64 : Z := 1024.

(** A C [float]: a datum that is valid in binary32. *)
Record float := Float {
  datum :> spec_float;
  datum_valid : valid_binary prec32 emax32 datum = true
}.

(** A C [double], as it occurs here: a literal or a promoted operand. *)
Definition double := spec_float.

(** The implicit promotion of a [float] operand to [double]. *)
Definition to_double (x : float) : double :=
  match datum x with
  | S754_finite s m e => binary_round prec64 emax64 s m e
  | d => d
  end.

(** The datum a [double] becomes when it is stored in a [float] (round
    to nearest, ties to even). *)
Definition to_float (x : double) : spec_float :=
  match x with
  | S754_finite s m e => binary_round prec32 emax32 s m e
  | _ => x
  end.

(** A decimal [double] literal with numerator [n] and denominator [d],
    both below 2^53: the correctly rounded quotient. *)
Definition double_lit (n : Z) (d : positive) : double :=
  SFdiv prec64 emax64 (binary_normalize prec64 emax64 n 0 false)
                      (binary_normalize prec64 emax64 (Zpos d) 0 false).

(** The literals of the source: [1e-6], [1.9], [0.15], [2.], [0.]. *)
Definition d_1e_6 : double := Eval vm_compute in double_lit 1 1000000.
Definition d_1_9 : double := Eval vm_compute in double_lit 19 10.
Definition d_0_15 : double := Eval vm_compute in double_lit 15 100.
Definition d_2 : double := Eval vm_compute in double_lit 2 1.
Definition d_0 : double := Eval vm_compute in double_lit 0 1.

(** The same literals stored in a [float], and the [int] literal [0]
    stored in a [float]. *)
Definition f_0_15 : float :=
  Float (to_float d_0_15) eq_refl.
Definition f_2 : float :=
  Float (to_float d_2) eq_refl.
Definition f_0 : float :=
  Float (to_float d_0) eq_refl.
Definition f_int_0 : float :=
  Float (binary_normalize prec32 emax32 0 0 false) eq_refl.

(** [a < b], [a > b] and [a == b] with a [float] on the left and a
    [double] literal on the right: the usual arithmetic conversions
    promote the left operand. *)
Definition lt_lit (a : float) (b : double) : bool :=
  SFltb (to_double a) b.
Definition gt_lit (a : float) (b : double) : bool :=
  SFltb b (to_double a).
Definition eq_lit (a : float) (b : double) : bool :=
  SFeqb (to_double a) b.

(** The exact value of a finite datum, and the exact comparison of a
    datum with a rational: [None] for a NaN, the infinities at the two
    ends. *)
Definition F2Q (x : spec_float) : Q :=
  match x with
  | S754_finite s m e =>
      let n := if s then Zneg m else Zpos m in
      match e with
      | Zneg p => n # (2 ^ p)
      | _ => inject_Z (n * 2 ^ e)
      end
  | _ => 0
  end.

Definition cmpQ (x : spec_float) (q : Q) : option comparison :=
  match x with
  | S754_nan => None
  | S754_infinity s => Some (if s then Lt else Gt)
  | _ => Some (F2Q x ?= q)
  end.

Definition below (x : spec_float) (q : Q) : Prop := cmpQ x q = Some Lt.
Definition above (x : spec_float) (q : Q) : Prop := cmpQ x q = Some Gt.
Definition equal_to (x : spec_float) (q : Q) : Prop := cmpQ x q = Some Eq.
Definition at_most (x : spec_float) (q : Q) : Prop :=
  below x q \/ equal_to x q.
Definition at_least (x : spec_float) (q : Q) : Prop :=
  above x q \/ equal_to x q.

End IEEE.

Import IEEE.

(** ** Observable behaviour: a trace of events and a final status *)

(** A [const char*]: [nullptr] or a string. *)
Definition cstr := option string.

(** [pmp::IOFlags], of which the program sets [use_binary]. *)
Record IOFlags := { use_binary : bool }.

(** What a call of [pmp::read] or [pmp::write] does: it returns, or it
    throws [pmp::IOException] with a [what()] text. *)
Inductive io_result (A : Type) :=
| Returned (a : A)
| IOException (what : string).
Arguments Returned {A} a.
Arguments IOException {A} what.

(** One operand of [<<] on [std::cout]. *)
Inductive token :=
| Text (s : string)
| CStr (p : cstr)
| Flt (x : float)
| Int (n : Z)
| Size (n : N).

(** How the process ends: [exit(code)], or [std::terminate] after an
    exception nobody catches. *)
Inductive status :=
| Exit (code : Z)
| Terminate.

Inductive outcome (A : Type) :=
| Continue (a : A)
| Halt (s : status).
Arguments Continue {A} a.
Arguments Halt {A} s.

Section Behaviour.

Variable Mesh : Type.

(** Output on [std::cerr], one statement's output on [std::cout] (each
    ends with [std::endl]), and the calls into the mesh library. *)
Inductive event :=
| Cerr (text : string)
| Cout (line : list token)
| CallRead (path : cstr)
| CallRemesh (m : Mesh) (edge_length : float) (iterations : N) (flag : bool)
| CallWrite (m : Mesh) (path : cstr) (flags : IOFlags).

(** A statement sequence: the events it emits, and whether control
    goes on. *)
Definition prog (A : Type) : Type := (list event * outcome A)%type.

Definition ret {A} (a : A) : prog A := ([], Continue a).

Definition bind {A B} (m : prog A) (k : A -> prog B) : prog B :=
  match m with
  | (t, Continue a) => let (t', o) := k a in (t ++ t', o)
  | (t, Halt s) => (t, Halt s)
  end.

Definition emit (e : event) : prog unit := ([e], Continue tt).
Definition halt {A} (s : status) : prog A := ([], Halt s).
Definition exit {A} (code : Z) : prog A := halt (Exit code).

(** A program that cannot fall off its end. *)
Definition run (m : prog Empty_set) : list event * status :=
  match m with
  | (t, Halt s) => (t, s)
  | (_, Continue e) => match e with end
  end.

(** *** Observations on a trace *)

Definition is_read (e : event) : bool :=
  match e with CallRead _ => true | _ => false end.
Definition is_remesh (e : event) : bool :=
  match e with CallRemesh _ _ _ _ => true | _ => false end.
Definition is_write (e : event) : bool :=
  match e with CallWrite _ _ _ => true | _ => false end.
Definition is_call (e : event) : bool :=
  is_read e || is_remesh e || is_write e.
Definition is_cerr (e : event) : bool :=
  match e with Cerr _ => true | _ => false end.
Definition is_cout (e : event) : bool :=
  match e with Cout _ => true | _ => false end.

(** The mesh handed to the writer, when the run gets that far. *)
Fixpoint written_mesh (t : list event) : option Mesh :=
  match t with
  | [] => None
  | CallWrite m _ _ :: _ => Some m
  | _ :: t' => written_mesh t'
  end.

End Behaviour.

Arguments Cerr {Mesh} text.
Arguments Cout {Mesh} line.
Arguments CallRead {Mesh} path.
Arguments ret {Mesh A} a.
Arguments bind {Mesh A B} m k.
Arguments emit {Mesh} e.
Arguments halt {Mesh A} s.
Arguments exit {Mesh A} code%_Z.
Arguments run {Mesh} m.

Declare Scope prog_scope.
Delimit Scope prog_scope with prog.
Notation "x <- m ;; k" := (bind m (fun x => k))
  (at level 61, m at next level, right associativity) : prog_scope.
Notation "m ;; k" := (bind m (fun _ => k))
  (at level 61, right associativity) : prog_scope.

Local Open Scope string_scope.
Local Open Scope prog_scope.

(** ** The text of [usage_and_exit] *)

Definition nl : string := String (ascii_of_nat 10) EmptyString.

Definition usage_text : string :=
  concat "" [
    nl; "Example usage"; nl; "-------------"; nl;
    "hrtf_mesh_grading -x 0.5 -y 10 -s 'left' -i head.ply -o head_left.ply -v"; nl; nl;
    "Parameters"; nl; "----------"; nl;
    "-x the minimum edge length in mm"; nl;
    "-y the maximum edge length in mm"; nl;
    "-e the maximum geometrical error in mm (Optional. The minimum edge length by default)"; nl;
    "-s the side at which the mesh resolution will be high ('left' or 'right')"; nl;
    "-l, r the left and right y-coordinate of the actual ear channel entrances in the unit of the input mesh. ";
    "Note that the gamma scaling factors won't be used if the actual positions are given."; nl;
    "-g, h the scaling factor to estimate the y-coordinate of the left (g) and right (h) ear channel entrance (gamma on p. 1112 in Palm et al.). The default is 0.15. ";
    "Use this if the actual ear channel entrance position is not know and the graded mesh contains to large or too small elements in the vicinity of the ear channels. ";
    "Use the verbose flag to echo the gamma parameters. ";
    "The estimated positions should have slightly smaller absolute values than the actual ear channel entrances."; nl;
    "-i the path to the input mesh"; nl;
    "-o the path to the output mesh"; nl;
    "-v verbose mode to echo input parameters and report mesh statistics (optional)"; nl;
    "-b write the output mesh as binary data (optional)"; nl; nl;
    "Note"; nl; "----"; nl;
    "Note the section 'Mesh Preparation' on https://github.com/cg-tub/hrtf_mesh_grading."; nl; nl;
    "Reference"; nl; "---------"; nl;
    "T. Palm, S. Koch, F. Brinkmann, and M. Alexa, “Curvature-adaptive mesh grading for numerical approximation of head-related transfer functions,” in DAGA 2021, Vienna, Austria, pp. 1111-1114."; nl; nl
  ].

(** ** The local variables of [main] *)

Record locals := {
  binary : bool;
  verbose : bool;
  input : cstr;
  output : cstr;
  min : float;
  max : float;
  err : float;
  channel_left : float;
  channel_right : float;
  gamma_scaling_left : float;
  gamma_scaling_right : float;
  ear : cstr
}.

Definition set_binary v a :=
  {| binary := v;
     verbose := verbose a;
     input := input a;
     output := output a;
     min := min a;
     max := max a;
     err := err a;
     channel_left := channel_left a;
     channel_right := channel_right a;
     gamma_scaling_left := gamma_scaling_left a;
     gamma_scaling_right := gamma_scaling_right a;
     ear := ear a |}.
Definition set_verbose v a :=
  {| binary := binary a;
     verbose := v;
     input := input a;
     output := output a;
     min := min a;
     max := max a;
     err := err a;
     channel_left := channel_left a;
     channel_right := channel_right a;
     gamma_scaling_left := gamma_scaling_left a;
     gamma_scaling_right := gamma_scaling_right a;
     ear := ear a |}.
Definition set_input v a :=
  {| binary := binary a;
     verbose := verbose a;
     input := v;
     output := output a;
     min := min a;
     max := max a;
     err := err a;
     channel_left := channel_left a;
     channel_right := channel_right a;
     gamma_scaling_left := gamma_scaling_left a;
     gamma_scaling_right := gamma_scaling_right a;
     ear := ear a |}.
Definition set_output v a :=
  {| binary := binary a;
     verbose := verbose a;
     input := input a;
     output := v;
     min := min a;
     max := max a;
     err := err a;
     channel_left := channel_left a;
     channel_right := channel_right a;
     gamma_scaling_left := gamma_scaling_left a;
     gamma_scaling_right := gamma_scaling_right a;
     ear := ear a |}.
Definition set_min v a :=
  {| binary := binary a;
     verbose := verbose a;
     input := input a;
     output := output a;
     min := v;
     max := max a;
     err := err a;
     channel_left := channel_left a;
     channel_right := channel_right a;
     gamma_scaling_left := gamma_scaling_left a;
     gamma_scaling_right := gamma_scaling_right a;
     ear := ear a |}.
Definition set_max v a :=
  {| binary := binary a;
     verbose := verbose a;
     input := input a;
     output := output a;
     min := min a;
     max := v;
     err := err a;
     channel_left := channel_left a;
     channel_right := channel_right a;
     gamma_scaling_left := gamma_scaling_left a;
     gamma_scaling_right := gamma_scaling_right a;
     ear := ear a |}.
Definition set_err v a :=
  {| binary := binary a;
     verbose := verbose a;
     input := input a;
     output := output a;
     min := min a;
     max := max a;
     err := v;
     channel_left := channel_left a;
     channel_right := channel_right a;
     gamma_scaling_left := gamma_scaling_left a;
     gamma_scaling_right := gamma_scaling_right a;
     ear := ear a |}.
Definition set_channel_left v a :=
  {| binary := binary a;
     verbose := verbose a;
     input := input a;
     output := output a;
     min := min a;
     max := max a;
     err := err a;
     channel_left := v;
     channel_right := channel_right a;
     gamma_scaling_left := gamma_scaling_left a;
     gamma_scaling_right := gamma_scaling_right a;
     ear := ear a |}.
Definition set_channel_right v a :=
  {| binary := binary a;
     verbose := verbose a;
     input := input a;
     output := output a;
     min := min a;
     max := max a;
     err := err a;
     channel_left := channel_left a;
     channel_right := v;
     gamma_scaling_left := gamma_scaling_left a;
     gamma_scaling_right := gamma_scaling_right a;
     ear := ear a |}.
Definition set_gamma_scaling_left v a :=
  {| binary := binary a;
     verbose := verbose a;
     input := input a;
     output := output a;
     min := min a;
     max := max a;
     err := err a;
     channel_left := channel_left a;
     channel_right := channel_right a;
     gamma_scaling_left := v;
     gamma_scaling_right := gamma_scaling_right a;
     ear := ear a |}.
Definition set_gamma_scaling_right v a :=
  {| binary := binary a;
     verbose := verbose a;
     input := input a;
     output := output a;
     min := min a;
     max := max a;
     err := err a;
     channel_left := channel_left a;
     channel_right := channel_right a;
     gamma_scaling_left := gamma_scaling_left a;
     gamma_scaling_right := v;
     ear := ear a |}.
Definition set_ear v a :=
  {| binary := binary a;
     verbose := verbose a;
     input := input a;
     output := output a;
     min := min a;
     max := max a;
     err := err a;
     channel_left := channel_left a;
     channel_right := channel_right a;
     gamma_scaling_left := gamma_scaling_left a;
     gamma_scaling_right := gamma_scaling_right a;
     ear := v |}.

(** [float min, max, err = 0;] initialises [err] only: [min] and [max]
    start with whatever the stack holds. *)
Record indeterminate := { min_0 : float; max_0 : float }.

Definition initial (u : indeterminate) : locals := {|
  binary := false;
  verbose := false;
  input := None;
  output := None;
  min := min_0 u;
  max := max_0 u;
  err := f_int_0;
  channel_left := f_0;
  channel_right := f_0;
  gamma_scaling_left := f_2;
  gamma_scaling_right := f_2;
  ear := None
|}.

(** One result of [getopt]: the option character it returns and the
    [optarg] it leaves.  An unknown option or a missing argument comes
    back as ['?'], which has no [case] in the [switch]. *)
Definition getopt_result := (ascii * string)%type.


(** ** The collaborators of [main]

    What the file calls and does not define: [std::stof] ([None] when it
    throws [std::invalid_argument] or [std::out_of_range]), the
    default-constructed [pmp::SurfaceMesh], [pmp::read],
    [pmp::uniform_remeshing], [pmp::write] and [SurfaceMesh::n_faces]. *)

Class Collaborators := {
  Mesh : Type;
  stof : string -> option float;
  empty_mesh : Mesh;
  read : Mesh -> cstr -> io_result Mesh;
  uniform_remeshing : Mesh -> float -> N -> bool -> Mesh;
  write : Mesh -> cstr -> IOFlags -> io_result unit;
  n_faces : Mesh -> N
}.

(** ** [main] *)

Section Main.

Context {C : Collaborators}.

Definition usage_and_exit {A} : prog Mesh A :=
  emit (Cerr usage_text) ;; exit 1.

(** [std::stof(optarg)]; an exception leaves [main] uncaught. *)
Definition stof_optarg (optarg : string) : prog Mesh float :=
  match stof optarg with
  | Some v => ret v
  | None => halt Terminate
  end.

(** The [switch] in the argument loop. *)
Definition handle_option (c : ascii) (optarg : string) (a : locals)
  : prog Mesh locals :=
  match c with
  | "x"%char => v <- stof_optarg optarg ;; ret (set_min v a)
  | "y"%char => v <- stof_optarg optarg ;; ret (set_max v a)
  | "e"%char => v <- stof_optarg optarg ;; ret (set_err v a)
  | "s"%char => ret (set_ear (Some optarg) a)
  | "l"%char => v <- stof_optarg optarg ;; ret (set_channel_left v a)
  | "r"%char => v <- stof_optarg optarg ;; ret (set_channel_right v a)
  | "g"%char => v <- stof_optarg optarg ;; ret (set_gamma_scaling_left v a)
  | "h"%char => v <- stof_optarg optarg ;; ret (set_gamma_scaling_right v a)
  | "i"%char => ret (set_input (Some optarg) a)
  | "o"%char => ret (set_output (Some optarg) a)
  | "v"%char => ret (set_verbose true a)
  | "b"%char => ret (set_binary true a)
  | _ => usage_and_exit
  end.

(** The [while ((c = getopt(...)) != -1)] loop, over the results
    [getopt] hands out. *)
Fixpoint parse_loop (opts : list getopt_result) (a : locals)
  : prog Mesh locals :=
  match opts with
  | [] => ret a
  | (c, optarg) :: rest =>
      a' <- handle_option c optarg a ;; parse_loop rest a'
  end.

Definition is_null (p : cstr) : bool :=
  match p with None => true | Some _ => false end.

(** The condition of the input check. *)
Definition invalid_input (a : locals) : bool :=
  lt_lit (min a) d_1e_6 || lt_lit (max a) d_1e_6
  || is_null (ear a) || is_null (input a) || is_null (output a).

Definition check_input (a : locals) : prog Mesh unit :=
  if invalid_input a then usage_and_exit else ret tt.

(** The three defaulting assignments. *)
Definition default_parameters (a : locals) : locals :=
  let a := if lt_lit (err a) d_1e_6 then set_err (min a) a else a in
  let a := if gt_lit (gamma_scaling_left a) d_1_9
           then set_gamma_scaling_left f_0_15 a else a in
  let a := if gt_lit (gamma_scaling_right a) d_1_9
           then set_gamma_scaling_right f_0_15 a else a in
  a.

Definition echo_gamma (a : locals) : event Mesh :=
  Cout [Text "gamma scaling left/right: "; Flt (gamma_scaling_left a);
        Text "/"; Flt (gamma_scaling_right a)].

Definition echo_input (a : locals) : prog Mesh unit :=
  if verbose a then
    emit (Cout [Text (nl ++ "input: "); CStr (input a)]) ;;
    emit (Cout [Text "output: "; CStr (output a)]) ;;
    emit (Cout [Text "side: "; CStr (ear a)]) ;;
    emit (Cout [Text "min. edge length: "; Flt (min a)]) ;;
    emit (Cout [Text "max. edge length: "; Flt (max a)]) ;;
    emit (Cout [Text "max. error: "; Flt (err a)]) ;;
    if eq_lit (channel_left a) d_0 && eq_lit (channel_right a) d_0
    then emit (echo_gamma a)
    else ret tt
  else ret tt.

Definition load_input (a : locals) : prog Mesh Mesh :=
  emit (CallRead (input a)) ;;
  match read empty_mesh (input a) with
  | Returned mesh => ret mesh
  | IOException what =>
      emit (Cerr ("Failed to read mesh: " ++ what)) ;; exit 1
  end.

(** [const int faces_before = mesh.n_faces();] narrows a [size_t]. *)
Definition to_int (n : N) : Z :=
  (Z.of_N n + 2 ^ 31) mod 2 ^ 32 - 2 ^ 31.

Definition remeshing (a : locals) (mesh : Mesh) : prog Mesh Mesh :=
  emit (CallRemesh mesh (min a) 10%N true) ;;
  ret (uniform_remeshing mesh (min a) 10%N true).

Definition echo_stats (a : locals) (faces_before : Z) (mesh : Mesh)
  : prog Mesh unit :=
  if verbose a then
    emit (Cout [Text (nl ++ "Faces before remeshing: "); Int faces_before]) ;;
    emit (Cout [Text "Faces after remeshing:  "; Size (n_faces mesh)])
  else ret tt.

Definition write_output (a : locals) (mesh : Mesh) : prog Mesh unit :=
  let flags := {| use_binary := binary a |} in
  emit (CallWrite mesh (output a) flags) ;;
  match write mesh (output a) flags with
  | Returned _ => ret tt
  | IOException what =>
      emit (Cerr ("Failed to write mesh: " ++ what)) ;; exit 1
  end.

(** Everything after the argument loop. *)
Definition after_parse (a : locals) : prog Mesh Empty_set :=
  check_input a ;;
  let a := default_parameters a in
  echo_input a ;;
  mesh <- load_input a ;;
  let faces_before := to_int (n_faces mesh) in
  mesh <- remeshing a mesh ;;
  echo_stats a faces_before mesh ;;
  write_output a mesh ;;
  exit 0.

Definition main_body (u : indeterminate) (opts : list getopt_result)
  : prog Mesh Empty_set :=
  a <- parse_loop opts (initial u) ;; after_parse a.

Definition main (u : indeterminate) (opts : list getopt_result)
  : list (event Mesh) * status :=
  run (main_body u opts).

(** The statements of [main] from the loading of the mesh on. *)
Definition work (a : locals) : prog Mesh Empty_set :=
  mesh <- load_input a ;;
  let faces_before := to_int (n_faces mesh) in
  mesh <- remeshing a mesh ;;
  echo_stats a faces_before mesh ;;
  write_output a mesh ;;
  exit 0.

(** What the two echo blocks print. *)
Definition echo_input_trace (a : locals) : list (event Mesh) :=
  fst (echo_input a).
Definition echo_stats_trace (a : locals) (n : Z) (m : Mesh)
  : list (event Mesh) :=
  fst (echo_stats a n m).

(** *** Vocabulary for statements about a command line *)

(** The argument of the last occurrence of option [c]. *)
Fixpoint last_arg (c : ascii) (opts : list getopt_result) : option string :=
  match opts with
  | [] => None
  | (c', s) :: rest =>
      match last_arg c rest with
      | Some r => Some r
      | None => if Ascii.eqb c' c then Some s else None
      end
  end.

(** The options whose argument goes through [std::stof]. *)
Definition takes_number (c : ascii) : bool :=
  existsb (Ascii.eqb c) ["x"; "y"; "e"; "l"; "r"; "g"; "h"]%char.

(** The options the [switch] has a [case] for. *)
Definition has_case (c : ascii) : bool :=
  existsb (Ascii.eqb c)
    ["x"; "y"; "e"; "s"; "l"; "r"; "g"; "h"; "i"; "o"; "v"; "b"]%char.

(** An option the loop gets past: it has a [case], and its argument
    reads as a number where the [case] calls [std::stof]. *)
Definition option_ok (o : getopt_result) : bool :=
  has_case (fst o)
  && (negb (takes_number (fst o))
      || match stof (snd o) with Some _ => true | None => false end).

Definition given (c : ascii) (opts : list getopt_result) : bool :=
  existsb (fun o => Ascii.eqb (fst o) c) opts.

(** Option [c] is on the command line and its last argument reads as
    the number [v]. *)
Definition supplied (c : ascii) (opts : list getopt_result) (v : float)
  : Prop :=
  exists s, last_arg c opts = Some s /\ stof s = Some v.

(** The argument loop runs to its end and leaves the locals [a]: every
    option has a [case] and every number reads. *)
Definition parses (u : indeterminate) (opts : list getopt_result)
    (a : locals) : Prop :=
  parse_loop opts (initial u) = ([], Continue a).

(** What the loop leaves in a [float] variable set by option [c], in a
    string variable set by option [c], and in a flag raised by [c]. *)
Fixpoint arg_float (c : ascii) (opts : list getopt_result) (d : float)
  : float :=
  match opts with
  | [] => d
  | (c', s) :: rest =>
      arg_float c rest
        (if Ascii.eqb c' c
         then match stof s with Some v => v | None => d end
         else d)
  end.

Fixpoint arg_str (c : ascii) (opts : list getopt_result) (d : cstr)
  : cstr :=
  match opts with
  | [] => d
  | (c', s) :: rest =>
      arg_str c rest (if Ascii.eqb c' c then Some s else d)
  end.

(** What the loop leaves in each local variable. *)
Record loop_post (opts : list getopt_result) (a0 a : locals) : Prop := {
  post_binary : binary a = given "b"%char opts || binary a0;
  post_verbose : verbose a = given "v"%char opts || verbose a0;
  post_input : input a = arg_str "i"%char opts (input a0);
  post_output : output a = arg_str "o"%char opts (output a0);
  post_ear : ear a = arg_str "s"%char opts (ear a0);
  post_min : min a = arg_float "x"%char opts (min a0);
  post_max : max a = arg_float "y"%char opts (max a0);
  post_err : err a = arg_float "e"%char opts (err a0);
  post_channel_left : channel_left a = arg_float "l"%char opts (channel_left a0);
  post_channel_right :
    channel_right a = arg_float "r"%char opts (channel_right a0);
  post_gamma_scaling_left :
    gamma_scaling_left a = arg_float "g"%char opts (gamma_scaling_left a0);
  post_gamma_scaling_right :
    gamma_scaling_right a = arg_float "h"%char opts (gamma_scaling_right a0)
}.

(** Two command lines with the same options in the same order, whose
    arguments may differ for the options in [cs] only. *)
Definition differ_only_in (cs : list ascii)
  : list getopt_result -> list getopt_result -> Prop :=
  Forall2 (fun o1 o2 =>
    fst o1 = fst o2 /\ (snd o1 = snd o2 \/ In (fst o1) cs)).

(** Two states of the locals that agree on everything but the side,
    which is null in both or in neither. *)
Definition same_but_ear (a b : locals) : Prop :=
  binary a = binary b /\ verbose a = verbose b
  /\ input a = input b /\ output a = output b
  /\ is_null (ear a) = is_null (ear b)
  /\ min a = min b /\ max a = max b /\ err a = err b
  /\ channel_left a = channel_left b
  /\ channel_right a = channel_right b
  /\ gamma_scaling_left a = gamma_scaling_left b
  /\ gamma_scaling_right a = gamma_scaling_right b.

(** Two states of the locals that agree on everything but the two
    gamma factors. *)
Definition same_but_gamma (a b : locals) : Prop :=
  binary a = binary b /\ verbose a = verbose b
  /\ input a = input b /\ output a = output b /\ ear a = ear b
  /\ min a = min b /\ max a = max b /\ err a = err b
  /\ channel_left a = channel_left b
  /\ channel_right a = channel_right b.

(** The test that guards the echo of the gamma factors. *)
Definition landmarks_unset (a : locals) : bool :=
  eq_lit (channel_left a) d_0 && eq_lit (channel_right a) d_0.

Definition is_gamma_echo (e : event Mesh) : bool :=
  match e with
  | Cout (Text "gamma scaling left/right: " :: _) => true
  | _ => false
  end.

End Main.

(** The options that carry the grading parameters: maximum edge length,
    maximum error, side, landmark coordinates and gamma factors. *)
Definition grading_options : list ascii :=
  ["y"; "e"; "s"; "l"; "r"; "g"; "h"]%char.

Definition gamma_options : list ascii := ["g"; "h"]%char.

Definition side_option : list ascii := ["s"]%char.

(** ** A concrete environment to run the program in *)

Module Demo.

(** A stand-in mesh: a face count and the edge length it was last
    remeshed to. *)
Record FaceCount := { faces : N; edge : option float }.

(** The binary32 datum nearest to [n / d], for [n] and [d] below 2^24. *)
Definition lit32 (n : Z) (d : positive) : spec_float :=
  SFdiv prec32 emax32 (binary_normalize prec32 emax32 n 0 false)
                      (binary_normalize prec32 emax32 (Zpos d) 0 false).

Definition f_0_5 : float := Float (lit32 5 10) eq_refl.
Definition f_10 : float := Float (lit32 10 1) eq_refl.
Definition f_20 : float := Float (lit32 20 1) eq_refl.
Definition f_1 : float := Float (lit32 1 1) eq_refl.
Definition f_1_9 : float := Float (lit32 19 10) eq_refl.
Definition f_1_900001 : float :=
  Float (lit32 1900001 1000000) eq_refl.
Definition f_5e_7 : float :=
  Float (lit32 5 10000000) eq_refl.
Definition f_1e_6 : float :=
  Float (lit32 1 1000000) eq_refl.
Definition f_m1 : float := Float (lit32 (-1) 1) eq_refl.
Definition f_0_2 : float := Float (lit32 2 10) eq_refl.
Definition f_0_3 : float := Float (lit32 3 10) eq_refl.
Definition f_75_5 : float := Float (lit32 755 10) eq_refl.
Definition f_m75_5 : float :=
  Float (lit32 (-755) 10) eq_refl.
Definition f_nan : float := Float S754_nan eq_refl.
Definition f_inf : float := Float (S754_infinity false) eq_refl.

Definition stof_table : list (string * float) :=
  [ ("0.5", f_0_5); ("10", f_10); ("20", f_20); ("1", f_1);
    ("1.9", f_1_9); ("1.900001", f_1_900001);
    ("5e-7", f_5e_7); ("1e-6", f_1e_6); ("0", f_0); ("-1", f_m1);
    ("0.2", f_0_2); ("0.3", f_0_3); ("75.5", f_75_5); ("-75.5", f_m75_5);
    ("nan", f_nan); ("inf", f_inf) ].

Fixpoint lookup (s : string) (t : list (string * float)) : option float :=
  match t with
  | [] => None
  | (k, v) :: t' => if String.eqb s k then Some v else lookup s t'
  end.

(** A file system with one readable mesh and one unwritable path. *)
Definition demo_read (_ : FaceCount) (path : cstr) : io_result FaceCount :=
  match path with
  | Some "head.ply" => Returned {| faces := 1000; edge := None |}
  | _ => IOException "cannot open file"
  end.

Definition demo_remeshing (m : FaceCount) (edge_length : float)
    (iterations : N) (flag : bool) : FaceCount :=
  {| faces := faces m * iterations; edge := Some edge_length |}.

Definition demo_write (_ : FaceCount) (path : cstr) (_ : IOFlags)
  : io_result unit :=
  match path with
  | Some "/readonly/out.ply" | None => IOException "cannot write file"
  | _ => Returned tt
  end.

(** [std::stof] reads the strings of [stof_table] and throws on the
    rest. *)
Definition env : Collaborators := {|
  Mesh := FaceCount;
  stof := fun s => lookup s stof_table;
  empty_mesh := {| faces := 0; edge := None |};
  read := demo_read;
  uniform_remeshing := demo_remeshing;
  write := demo_write;
  n_faces := faces
|}.

(** Stack contents for the two uninitialised variables. *)
Definition zeros : indeterminate := {| min_0 := f_0; max_0 := f_0 |}.
Definition ones : indeterminate := {| min_0 := f_1; max_0 := f_1 |}.

(** The command line of the usage text, as [getopt] reports it. *)
Definition usage_example : list getopt_result :=
  [ ("x"%char, "0.5"); ("y"%char, "10"); ("s"%char, "left");
    ("i"%char, "head.ply"); ("o"%char, "head_left.ply"); ("v"%char, "") ].

(** The same without [-x]. *)
Definition no_min : list getopt_result :=
  [ ("y"%char, "10"); ("s"%char, "left");
    ("i"%char, "head.ply"); ("o"%char, "head_left.ply") ].

(** The mesh [demo_read] finds in [head.ply]. *)
Definition head : FaceCount := {| faces := 1000; edge := None |}.

(** The locals the argument loop leaves, when it runs to its end. *)
Definition locals_of (u : indeterminate) (opts : list getopt_result)
  : locals :=
  match parse_loop (C:=env) opts (initial u) with
  | (_, Continue a) => a
  | _ => initial u
  end.

(** A command line from the required options [-x], [-y], [-s], [-i],
    [-o] and some more. *)
Definition command (x y side i o : string) (more : list getopt_result)
  : list getopt_result :=
  [ ("x"%char, x); ("y"%char, y); ("s"%char, side);
    ("i"%char, i); ("o"%char, o) ] ++ more.

(** Grading to the left with an explicit landmark, and grading to the
    right with other bounds, another landmark and a gamma factor. *)
Definition graded_left : list getopt_result :=
  command "0.5" "10" "left" "head.ply" "out.ply"
    [ ("e"%char, "0.3"); ("l"%char, "75.5"); ("g"%char, "0.2") ].
Definition graded_right : list getopt_result :=
  command "0.5" "20" "right" "head.ply" "out.ply"
    [ ("e"%char, "1"); ("r"%char, "-75.5"); ("h"%char, "0.3") ].

Definition graded_other : list getopt_result :=
  command "0.5" "20" "right" "head.ply" "out.ply"
    [ ("e"%char, "1"); ("l"%char, "-75.5"); ("g"%char, "0.3") ].

(** A maximum error that is positive and below [1e-6]; one that is
    above; none. *)
Definition tiny_error : list getopt_result :=
  command "0.5" "10" "left" "head.ply" "out.ply" [ ("e"%char, "5e-7") ].
Definition with_error : list getopt_result :=
  command "0.5" "10" "left" "head.ply" "out.ply" [ ("e"%char, "0.3") ].
Definition plain : list getopt_result :=
  command "0.5" "10" "left" "head.ply" "out.ply" [].

(** Minimum edge lengths that are negative, and positive below
    [1e-6]. *)
Definition negative_min : list getopt_result :=
  command "-1" "10" "left" "head.ply" "out.ply" [].
Definition tiny_min : list getopt_result :=
  command "5e-7" "10" "left" "head.ply" "out.ply" [].

(** No side. *)
Definition no_side : list getopt_result :=
  [ ("x"%char, "0.5"); ("y"%char, "10");
    ("i"%char, "head.ply"); ("o"%char, "out.ply") ].

(** An input that cannot be read, an output that cannot be written. *)
Definition unreadable : list getopt_result :=
  command "0.5" "10" "left" "missing.ply" "out.ply" [].
Definition unwritable : list getopt_result :=
  command "0.5" "10" "left" "head.ply" "/readonly/out.ply" [].

(** Gamma factors on both sides of 1.9, in verbose mode. *)
Definition gamma_boundary : list getopt_result :=
  command "0.5" "10" "left" "head.ply" "out.ply"
    [ ("g"%char, "1.900001"); ("h"%char, "1.9"); ("v"%char, "") ].

(** An explicit left landmark together with a gamma factor, in verbose
    mode, and the same with another gamma factor. *)
Definition landmark_and_gamma : list getopt_result :=
  command "0.5" "10" "left" "head.ply" "out.ply"
    [ ("l"%char, "75.5"); ("g"%char, "0.2"); ("v"%char, "") ].
Definition landmark_other_gamma : list getopt_result :=
  command "0.5" "10" "left" "head.ply" "out.ply"
    [ ("l"%char, "75.5"); ("g"%char, "0.3"); ("v"%char, "") ].

(** A question mark from [getopt] after [-x], with an unreadable
    number behind it; an unreadable minimum, with a question mark behind
    it. *)
Definition before_unknown : list getopt_result := [ ("x"%char, "0.5") ].
Definition after_unknown : list getopt_result := [ ("y"%char, "abc") ].
Definition before_unreadable : list getopt_result := [ ("s"%char, "left") ].
Definition after_unreadable : list getopt_result := [ ("?"%char, "") ].

(** The options of [plain] in another order, with [-x] given twice. *)
Definition shuffled : list getopt_result :=
  [ ("x"%char, "1"); ("o"%char, "out.ply"); ("i"%char, "head.ply");
    ("s"%char, "left"); ("y"%char, "10"); ("x"%char, "0.5") ].

(** Binary output; a side that is neither left nor right; a NaN as
    minimum with a maximum below 1; a maximum below the minimum. *)
Definition binary_output : list getopt_result :=
  command "0.5" "10" "left" "head.ply" "out.ply" [ ("b"%char, "") ].
Definition odd_side : list getopt_result :=
  command "0.5" "10" "both" "head.ply" "out.ply" [].
Definition nan_min : list getopt_result :=
  command "nan" "0.5" "left" "head.ply" "out.ply" [].
Definition max_below_min : list getopt_result :=
  command "10" "0.5" "left" "head.ply" "out.ply" [].

End Demo.

(** * Properties *)

(** ** The numeric literals *)

Example d_1e_6_bits : d_1e_6 = S754_finite false 4722366482869645 (-72).
Proof. reflexivity. Qed.
Example d_1_9_bits : d_1_9 = S754_finite false 8556839292003942 (-52).
Proof. reflexivity. Qed.
Example d_0_bits : d_0 = S754_zero false.
Proof. reflexivity. Qed.
Example f_0_15_bits : datum f_0_15 = S754_finite false 10066330 (-26).
Proof. reflexivity. Qed.
Example f_2_bits : datum f_2 = S754_finite false 8388608 (-22).
Proof. reflexivity. Qed.
Example f_0_bits : datum f_0 = S754_zero false.
Proof. reflexivity. Qed.
Example f_int_0_bits : datum f_int_0 = S754_zero false.
Proof. reflexivity. Qed.

(** ** Promotion to [double] and the comparisons with the literals *)

Section Promotion.

Local Open Scope Z_scope.

Lemma digits2_pos_iter (m k : positive) :
  digits2_pos (Pos.iter xO m k) = (digits2_pos m + k)%positive.
Proof.
  induction k using Pos.peano_ind.
  - simpl. lia.
  - rewrite Pos.iter_succ. simpl. rewrite IHk. lia.
Qed.

Lemma Zpos_iter (m k : positive) :
  Zpos (Pos.iter xO m k) = Zpos m * 2 ^ Zpos k.
Proof.
  induction k using Pos.peano_ind.
  - simpl. lia.
  - rewrite Pos.iter_succ, Pos2Z.inj_succ, Z.pow_succ_r by lia.
    rewrite Pos2Z.inj_xO, IHk. lia.
Qed.

Lemma digits2_pos_bounds (m : positive) :
  2 ^ (Zpos (digits2_pos m) - 1) <= Zpos m < 2 ^ Zpos (digits2_pos m).
Proof.
  induction m; simpl digits2_pos; rewrite ?Pos2Z.inj_succ.
  - replace (Z.succ (Zpos (digits2_pos m)) - 1)
      with (Z.succ (Zpos (digits2_pos m) - 1)) by lia.
    rewrite !Z.pow_succ_r by lia. lia.
  - replace (Z.succ (Zpos (digits2_pos m)) - 1)
      with (Z.succ (Zpos (digits2_pos m) - 1)) by lia.
    rewrite !Z.pow_succ_r by lia. lia.
  - simpl. lia.
Qed.

Lemma valid32_cases s m e :
  valid_binary prec32 emax32 (S754_finite s m e) = true ->
  Zpos (digits2_pos m) <= 24 /\ -149 <= e <= 104.
Proof.
  simpl. unfold bounded, canonical_mantissa, fexp, emin, prec32, emax32.
  intros H. apply andb_true_iff in H. destruct H as [H1 H2].
  apply Z.eqb_eq in H1. apply Z.leb_le in H2. lia.
Qed.

(** Promotion is exact: the mantissa is shifted left to 53 bits. *)
Lemma binary_round_promotes s m e :
  valid_binary prec32 emax32 (S754_finite s m e) = true ->
  exists j : positive,
    (29 <= Zpos j /\ Zpos (digits2_pos m) + Zpos j = 53) /\
    binary_round prec64 emax64 s m e
    = S754_finite s (Pos.iter xO m j) (e - Zpos j).
Proof.
  intros V. apply valid32_cases in V. destruct V as [Hd He].
  set (d := digits2_pos m) in *.
  exists (53 - d)%positive.
  assert (Hj : Zpos (53 - d) = 53 - Zpos d) by lia.
  split; [lia|].
  unfold binary_round.
  replace (fexp prec64 emax64 (Zpos (digits2_pos m) + e))
    with (e - Zpos (53 - d))
    by (unfold fexp, emin, prec64, emax64; fold d; lia).
  unfold shl_align.
  replace (e - Zpos (53 - d) - e) with (Zneg (53 - d)) by lia.
  unfold binary_round_aux, shr_fexp.
  cbn [Zdigits2 shr_record_of_loc].
  rewrite digits2_pos_iter.
  replace (fexp prec64 emax64
             (Zpos (digits2_pos m + (53 - d)) + (e - Zpos (53 - d)))
           - (e - Zpos (53 - d)))
    with 0 by (unfold fexp, emin, prec64, emax64; fold d; lia).
  cbn [shr shr_m loc_of_shr_record round_nearest_even Zdigits2
       shr_record_of_loc].
  rewrite digits2_pos_iter.
  replace (fexp prec64 emax64
             (Zpos (digits2_pos m + (53 - d)) + (e - Zpos (53 - d)))
           - (e - Zpos (53 - d)))
    with 0 by (unfold fexp, emin, prec64, emax64; fold d; lia).
  cbn [shr shr_m].
  replace (e - Zpos (53 - d) <=? emax64 - prec64) with true;
    [reflexivity|].
  symmetry. apply Z.leb_le. unfold emax64, prec64. lia.
Qed.

Lemma Zcompare_scale (n m p : Z) :
  0 < p -> (n * p ?= m * p) = (n ?= m).
Proof.
  intros Hp. destruct (Z.compare_spec n m) as [H|H|H].
  - subst. apply Z.compare_refl.
  - apply Z.compare_lt_iff. nia.
  - apply Z.compare_gt_iff. nia.
Qed.

(** The exact comparison of a positive finite datum with [a / b], with
    all powers of two scaled to integers. *)
Lemma Qcompare_F2Q_pos m e a b k :
  0 <= k -> 0 <= e + k ->
  (F2Q (S754_finite false m e) ?= a # b)%Q
  = (Zpos m * 2 ^ (e + k) * Zpos b ?= a * 2 ^ k).
Proof.
  intros Hk Hek.
  assert (Hpos : forall n, 0 <= n -> 0 < 2 ^ n)
    by (intros; apply Z.pow_pos_nonneg; lia).
  unfold F2Q, Qcompare. destruct e as [|p|p]; cbn [Qnum Qden inject_Z].
  - rewrite Z.add_0_l.
    replace (Zpos m * 2 ^ k * Zpos b)
      with (Zpos m * 2 ^ 0 * 1 * Zpos b * 2 ^ k)
      by (rewrite Z.pow_0_r; ring).
    replace (Zpos m * 2 ^ 0 * Zpos b)
      with (Zpos m * 2 ^ 0 * 1 * Zpos b) by ring.
    rewrite Zcompare_scale by auto.
    f_equal; ring.
  - rewrite Z.pow_add_r by lia.
    replace (Zpos m * (2 ^ Zpos p * 2 ^ k) * Zpos b)
      with (Zpos m * 2 ^ Zpos p * Zpos b * 2 ^ k) by ring.
    rewrite Zcompare_scale by auto.
    f_equal; ring.
  - rewrite Pos2Z.inj_pow.
    replace (2 ^ k) with (2 ^ Zpos p * 2 ^ (Zneg p + k))
      by (rewrite <- Z.pow_add_r by lia; f_equal; lia).
    replace (Zpos m * 2 ^ (Zneg p + k) * Zpos b)
      with (Zpos m * Zpos b * 2 ^ (Zneg p + k)) by ring.
    rewrite Z.mul_assoc.
    rewrite Zcompare_scale by auto.
    reflexivity.
Qed.

Lemma Qcompare_F2Q_neg m e a b :
  0 < a -> (F2Q (S754_finite true m e) ?= a # b)%Q = Lt.
Proof.
  intros Ha. unfold F2Q, Qcompare.
  destruct e as [|p|p]; cbn [Qnum Qden inject_Z]; apply Z.compare_lt_iff.
  - rewrite Z.pow_0_r. lia.
  - assert (0 < 2 ^ Zpos p) by (apply Z.pow_pos_nonneg; lia). nia.
  - nia.
Qed.

(** The machine comparison of a promoted [float] with a positive
    [double] literal is the exact comparison with a rational [a / b],
    when the literal is the [double] just below [a / b] and is not
    itself a [float]. *)
Lemma compare_promoted_literal (x : float) M0 E0 a b :
  digits2_pos M0 = 53%positive ->
  -201 <= E0 ->
  Zpos M0 * 2 ^ (E0 + 201) * Zpos b < a * 2 ^ 201 ->
  a * 2 ^ 201 < (Zpos M0 + 1) * 2 ^ (E0 + 201) * Zpos b ->
  Zpos M0 mod 2 ^ 29 <> 0 ->
  SFcompare (to_double x) (S754_finite false M0 E0) = cmpQ x (a # b).
Proof.
  intros D0 HE0 Hlo Hhi Hodd.
  assert (Ha : 0 < a).
  { assert (0 < 2 ^ (E0 + 201)) by (apply Z.pow_pos_nonneg; lia). nia. }
  destruct x as [[s|s| |s m e] V]; unfold to_double; cbn [datum].
  - simpl. f_equal. symmetry. apply Z.compare_lt_iff. simpl. lia.
  - reflexivity.
  - reflexivity.
  - destruct (binary_round_promotes s m e V) as (j & [Hj Hd] & ->).
    destruct s.
    + cbn [SFcompare cmpQ]. rewrite Qcompare_F2Q_neg by assumption.
      reflexivity.
    + pose proof (valid32_cases _ _ _ V) as [_ He].
      cbn [cmpQ]. rewrite (Qcompare_F2Q_pos m e a b (k:=201)) by lia.
      pose proof (digits2_pos_bounds (Pos.iter xO m j)) as HM.
      pose proof (digits2_pos_bounds M0) as HM0.
      rewrite digits2_pos_iter in HM.
      replace (Zpos (digits2_pos m + j)) with 53 in HM by lia.
      rewrite D0 in HM0.
      pose proof (Zpos_iter m j) as HMm.
      set (M := Zpos (Pos.iter xO m j)) in *.
      set (E := e - Zpos j).
      assert (HP : Zpos m * 2 ^ (e + 201) = M * 2 ^ (E + 201)).
      { rewrite HMm. unfold E.
        rewrite <- Z.mul_assoc, <- Z.pow_add_r by lia.
        do 2 f_equal. lia. }
      rewrite HP.
      assert (HP0 : 0 < 2 ^ (E0 + 201)) by (apply Z.pow_pos_nonneg; lia).
      assert (HPE : 0 < 2 ^ (E + 201))
        by (apply Z.pow_pos_nonneg; unfold E; lia).
      change (2 ^ (53 - 1)) with 4503599627370496 in *.
      change (2 ^ 53) with 9007199254740992 in *.
      cbn [SFcompare]. fold E. f_equal.
      destruct (Z.compare_spec E E0) as [HE|HE|HE].
      * rewrite HE in *.
        rewrite Pos.compare_cont_spec. cbn [Pos.switch_Eq].
        change ((Pos.iter xO m j ?= M0)%positive) with (M ?= Zpos M0).
        destruct (Z.compare_spec M (Zpos M0)) as [HC|HC|HC]; symmetry.
        -- exfalso. apply Hodd. rewrite <- HC, HMm.
           replace (Zpos j) with (Zpos j - 29 + 29) by lia.
           rewrite Z.pow_add_r by lia. rewrite Z.mul_assoc.
           apply Z.mod_mul. discriminate.
        -- apply Z.compare_lt_iff. nia.
        -- apply Z.compare_gt_iff. nia.
      * symmetry. apply Z.compare_lt_iff.
        assert (H2 : 2 * 2 ^ (E + 201) <= 2 ^ (E0 + 201)).
        { rewrite <- Z.pow_succ_r by (unfold E; lia).
          apply Z.pow_le_mono_r; lia. }
        apply Z.le_lt_trans with (2 := Hlo).
        apply Z.mul_le_mono_nonneg_r; [lia|].
        apply Z.le_trans with (Zpos M0 * (2 * 2 ^ (E + 201))); [nia|].
        apply Z.mul_le_mono_nonneg_l; lia.
      * symmetry. apply Z.compare_gt_iff.
        assert (H2 : 2 * 2 ^ (E0 + 201) <= 2 ^ (E + 201)).
        { rewrite <- Z.pow_succ_r by lia.
          apply Z.pow_le_mono_r; lia. }
        apply Z.lt_le_trans with (1 := Hhi).
        apply Z.mul_le_mono_nonneg_r; [lia|].
        apply Z.le_trans with (M * (2 * 2 ^ (E0 + 201))); [nia|].
        apply Z.mul_le_mono_nonneg_l; lia.
Qed.

Lemma compare_1e_6 (x : float) :
  SFcompare (to_double x) d_1e_6 = cmpQ x (1 # 1000000).
Proof.
  apply (@compare_promoted_literal x 4722366482869645 (-72) 1 1000000);
    try reflexivity; vm_compute; congruence.
Qed.

Lemma compare_1_9 (x : float) :
  SFcompare (to_double x) d_1_9 = cmpQ x (19 # 10).
Proof.
  apply (@compare_promoted_literal x 8556839292003942 (-52) 19 10);
    try reflexivity; vm_compute; congruence.
Qed.

Lemma compare_0 (x : float) :
  SFcompare (to_double x) d_0 = cmpQ x 0.
Proof.
  destruct x as [[s|s| |s m e] V]; unfold to_double; cbn [datum];
    try reflexivity.
  destruct (binary_round_promotes s m e V) as (j & _ & ->).
  cbn [SFcompare d_0 cmpQ]. f_equal. unfold F2Q, Qcompare.
  symmetry.
  destruct s, e as [|p|p]; cbn [Qnum Qden inject_Z];
    first [apply Z.compare_lt_iff | apply Z.compare_gt_iff];
    try (assert (0 < 2 ^ Zpos p) by (apply Z.pow_pos_nonneg; lia));
    rewrite ?Z.pow_0_r; nia.
Qed.

(** [SFcompare] with its operands exchanged. *)
Lemma SFcompare_swap (x y : spec_float) :
  SFcompare y x = option_map CompOpp (SFcompare x y).
Proof.
  destruct x as [s1|s1| |s1 m1 e1], y as [s2|s2| |s2 m2 e2];
    try reflexivity;
    try (destruct s1; reflexivity);
    try (destruct s2; reflexivity);
    try (destruct s1, s2; reflexivity).
  cbn [SFcompare option_map]. f_equal.
  rewrite !Pos.compare_cont_spec. cbn [Pos.switch_Eq].
  rewrite (Z.compare_antisym e1 e2), (Pos.compare_antisym m1 m2).
  destruct s1, s2; try reflexivity;
    destruct (e1 ?= e2); cbn [CompOpp]; try reflexivity;
    destruct (m1 ?= m2)%positive; reflexivity.
Qed.

End Promotion.

(** The three tests of the program, read as exact comparisons. *)

Lemma lt_lit_1e_6 (x : float) :
  lt_lit x d_1e_6 = true <-> below x (1 # 1000000).
Proof.
  unfold lt_lit, SFltb, below. rewrite compare_1e_6.
  destruct (cmpQ x (1 # 1000000)) as [[]|]; split; congruence.
Qed.

Lemma gt_lit_1_9 (x : float) :
  gt_lit x d_1_9 = true <-> above x (19 # 10).
Proof.
  unfold gt_lit, SFltb, above. rewrite SFcompare_swap, compare_1_9.
  destruct (cmpQ x (19 # 10)) as [[]|]; cbn; split; congruence.
Qed.

Lemma eq_lit_0 (x : float) :
  eq_lit x d_0 = true <-> equal_to x 0.
Proof.
  unfold eq_lit, SFeqb, equal_to. rewrite compare_0.
  destruct (cmpQ x 0) as [[]|]; split; congruence.
Qed.

(** Order facts for the exact comparison. *)

Lemma at_most_below (x : spec_float) (q q' : Q) :
  at_most x q -> (q < q')%Q -> below x q'.
Proof.
  unfold at_most, below, equal_to.
  destruct x as [s|s| |s m e]; cbn [cmpQ]; intros [H|H] Hq;
    try discriminate; try assumption;
    try (destruct s; discriminate);
    injection H as H; f_equal; apply -> Qlt_alt.
  - apply Qlt_trans with q; [apply <- Qlt_alt|]; assumption.
  - apply Qeq_alt in H. rewrite H. assumption.
  - apply Qlt_trans with q; [apply <- Qlt_alt|]; assumption.
  - apply Qeq_alt in H. rewrite H. assumption.
Qed.

Lemma at_most_not_above (x : spec_float) (q : Q) : at_most x q -> ~ above x q.
Proof. unfold at_most, below, equal_to, above. intros [H|H]; congruence. Qed.

(** ** The argument loop *)

Section Loop.

Context {C : Collaborators}.

Local Open Scope char_scope.

(** The [switch] as a chain of character tests. *)
Lemma handle_option_cases c optarg a :
  handle_option c optarg a =
  if c =? "x" then v <- stof_optarg optarg ;; ret (set_min v a)
  else if c =? "y" then v <- stof_optarg optarg ;; ret (set_max v a)
  else if c =? "e" then v <- stof_optarg optarg ;; ret (set_err v a)
  else if c =? "s" then ret (set_ear (Some optarg) a)
  else if c =? "l" then v <- stof_optarg optarg ;; ret (set_channel_left v a)
  else if c =? "r" then v <- stof_optarg optarg ;; ret (set_channel_right v a)
  else if c =? "g" then
    v <- stof_optarg optarg ;; ret (set_gamma_scaling_left v a)
  else if c =? "h" then
    v <- stof_optarg optarg ;; ret (set_gamma_scaling_right v a)
  else if c =? "i" then ret (set_input (Some optarg) a)
  else if c =? "o" then ret (set_output (Some optarg) a)
  else if c =? "v" then ret (set_verbose true a)
  else if c =? "b" then ret (set_binary true a)
  else usage_and_exit.
Proof. destruct c as [[] [] [] [] [] [] [] []]; reflexivity. Qed.

(** One pass through the [switch] goes on with new locals, prints the
    usage text and exits with 1, or dies in [std::stof]. *)
Lemma handle_option_outcome c optarg a :
  (exists a', handle_option c optarg a = ([], Continue a'))
  \/ handle_option c optarg a = ([Cerr usage_text], Halt (Exit 1))
  \/ (handle_option c optarg a = ([], Halt Terminate)
      /\ takes_number c = true /\ stof optarg = None).
Proof.
  rewrite handle_option_cases. unfold stof_optarg.
  repeat match goal with
         | |- context [if (c =? ?k) then _ else _] =>
             destruct (Ascii.eqb_spec c k) as [->|_]
         end;
    try (destruct (stof optarg) eqn:E); cbn -[usage_text];
    first [ left; eexists; reflexivity
          | right; left; reflexivity
          | right; right; repeat split; reflexivity ].
Qed.

Lemma parse_loop_outcome opts : forall a0,
  (exists a, parse_loop opts a0 = ([], Continue a))
  \/ parse_loop opts a0 = ([Cerr usage_text], Halt (Exit 1))
  \/ (parse_loop opts a0 = ([], Halt Terminate)
      /\ exists c s,
          In (c, s) opts /\ takes_number c = true /\ stof s = None).
Proof.
  induction opts as [|[c s] rest IH]; intros a0.
  - left. exists a0. reflexivity.
  - cbn [parse_loop].
    destruct (handle_option_outcome c s a0) as [[a1 ->]|[->|[-> E]]].
    + cbn [bind].
      destruct (IH a1) as [[a ->]|[->|[-> (c' & s' & Hin & E)]]].
      * left. exists a. reflexivity.
      * right. left. reflexivity.
      * right. right. split; [reflexivity|].
        exists c', s'. split; [right|]; assumption.
    + right. left. reflexivity.
    + right. right. split; [reflexivity|].
      exists c, s. split; [left; reflexivity|assumption].
Qed.

Lemma loop_post_nil a : loop_post [] a a.
Proof. constructor; reflexivity. Qed.

Lemma given_cons c c' s rest :
  given c ((c', s) :: rest) = (c' =? c) || given c rest.
Proof. reflexivity. Qed.

Lemma parse_loop_post opts : forall a0 t a,
  parse_loop opts a0 = (t, Continue a) -> t = [] /\ loop_post opts a0 a.
Proof.
  induction opts as [|[c s] rest IH]; intros a0 t a H.
  - cbn in H. injection H as <- <-. split; [reflexivity|apply loop_post_nil].
  - cbn [parse_loop] in H. rewrite handle_option_cases in H.
    unfold stof_optarg in H.
    repeat match type of H with
           | context [if (c =? ?k) then _ else _] =>
               destruct (Ascii.eqb_spec c k) as [->|_]
           end;
      try match type of H with
          | context [stof s] => destruct (stof s) as [v|] eqn:E
          end;
      try discriminate H;
      cbn [bind ret app] in H;
      match type of H with
      | (let (_, _) := parse_loop rest ?a1 in _) = _ =>
          destruct (parse_loop rest a1) as [t' o] eqn:P;
          injection H as <- ->;
          destruct (IH _ _ _ P) as [-> Q]; split; [reflexivity|];
          destruct Q; constructor;
          rewrite ?given_cons; cbn [arg_float arg_str Ascii.eqb Bool.eqb orb];
          rewrite ?E;
          try assumption
      end.
    all: match goal with
         | HQ : ?l = ?r |- ?l = _ => rewrite HQ; cbn;
             try reflexivity
         end.
    all: apply orb_true_r.
Qed.

End Loop.

(** ** Reading the loop's result off the command line *)

Section CommandLine.

Context {C : Collaborators}.

Lemma arg_float_absent c opts : forall d,
  last_arg c opts = None -> arg_float c opts d = d.
Proof.
  induction opts as [|[c' s'] rest IH]; intros d H; [reflexivity|].
  cbn [last_arg] in H. cbn [arg_float].
  destruct (last_arg c rest); [discriminate|].
  destruct (Ascii.eqb c' c); [discriminate|]. apply IH. reflexivity.
Qed.

Lemma arg_float_last c opts s v : forall d,
  last_arg c opts = Some s -> stof s = Some v -> arg_float c opts d = v.
Proof.
  induction opts as [|[c' s'] rest IH]; intros d H E; [discriminate|].
  cbn [last_arg] in H. cbn [arg_float].
  destruct (last_arg c rest) as [r|] eqn:L.
  - apply IH; assumption.
  - destruct (Ascii.eqb c' c); [|discriminate].
    injection H as ->. rewrite E. apply arg_float_absent. assumption.
Qed.

Lemma arg_float_supplied c opts v d :
  supplied c opts v -> arg_float c opts d = v.
Proof. intros (s & L & E). eapply arg_float_last; eassumption. Qed.

Lemma arg_str_absent c opts : forall d,
  last_arg c opts = None -> arg_str c opts d = d.
Proof.
  induction opts as [|[c' s'] rest IH]; intros d H; [reflexivity|].
  cbn [last_arg] in H. cbn [arg_str].
  destruct (last_arg c rest); [discriminate|].
  destruct (Ascii.eqb c' c); [discriminate|]. apply IH. reflexivity.
Qed.

Lemma arg_str_last c opts s : forall d,
  last_arg c opts = Some s -> arg_str c opts d = Some s.
Proof.
  induction opts as [|[c' s'] rest IH]; intros d H; [discriminate|].
  cbn [last_arg] in H. cbn [arg_str].
  destruct (last_arg c rest) as [r|] eqn:L.
  - apply IH; assumption.
  - destruct (Ascii.eqb c' c); [|discriminate].
    injection H as ->. apply arg_str_absent. assumption.
Qed.

Lemma given_false_last_arg c opts :
  given c opts = false -> last_arg c opts = None.
Proof.
  induction opts as [|[c' s'] rest IH]; intros H; [reflexivity|].
  cbn in H. apply orb_false_iff in H. destruct H as [H1 H2].
  cbn [last_arg]. rewrite (IH H2), H1. reflexivity.
Qed.

Lemma given_true_last_arg c opts :
  given c opts = true -> exists s, last_arg c opts = Some s.
Proof.
  induction opts as [|[c' s'] rest IH]; intros H; [discriminate|].
  cbn in H. cbn [last_arg].
  destruct (last_arg c rest) as [r|]; [eauto|].
  destruct (Ascii.eqb c' c); [eauto|].
  destruct (IH H) as [s E]. discriminate.
Qed.

Lemma given_of_last_arg c opts :
  given c opts = match last_arg c opts with Some _ => true | None => false end.
Proof.
  destruct (given c opts) eqn:G.
  - destruct (given_true_last_arg _ _ G) as [s ->]. reflexivity.
  - rewrite (given_false_last_arg _ _ G). reflexivity.
Qed.

Lemma arg_str_of_last_arg c opts d :
  arg_str c opts d
  = match last_arg c opts with Some s => Some s | None => d end.
Proof.
  destruct (last_arg c opts) as [s|] eqn:L.
  - apply arg_str_last. exact L.
  - apply arg_str_absent. exact L.
Qed.

(** Command lines that differ in the arguments of the options [cs] give
    every other option the same last argument. *)
Lemma differ_last_arg cs c o1 o2 :
  differ_only_in cs o1 o2 -> ~ In c cs -> last_arg c o1 = last_arg c o2.
Proof.
  intros D Hc. induction D as [|[c1 s1] [c2 s2] r1 r2 [Hf Hs] D IH];
    [reflexivity|].
  cbn in Hf, Hs. subst c2. cbn [last_arg]. rewrite IH.
  destruct (last_arg c r2); [reflexivity|].
  destruct (Ascii.eqb_spec c1 c) as [->|_]; [|reflexivity].
  destruct Hs as [->|Hin]; [reflexivity|contradiction].
Qed.

(** Command lines that differ in the arguments of the options [cs]
    leave the same values in the variables the other options set. *)
Lemma differ_arg_float cs c o1 o2 :
  differ_only_in cs o1 o2 -> ~ In c cs ->
  forall d, arg_float c o1 d = arg_float c o2 d.
Proof.
  intros D Hc. induction D as [|[c1 s1] [c2 s2] r1 r2 [Hf Hs] D IH];
    intros d; [reflexivity|].
  cbn in Hf, Hs. subst c2. cbn [arg_float].
  destruct (Ascii.eqb_spec c1 c) as [->|Hne]; [|apply IH].
  destruct Hs as [->|Hin]; [apply IH|contradiction].
Qed.

Lemma differ_arg_str cs c o1 o2 :
  differ_only_in cs o1 o2 -> ~ In c cs ->
  forall d, arg_str c o1 d = arg_str c o2 d.
Proof.
  intros D Hc. induction D as [|[c1 s1] [c2 s2] r1 r2 [Hf Hs] D IH];
    intros d; [reflexivity|].
  cbn in Hf, Hs. subst c2. cbn [arg_str].
  destruct (Ascii.eqb_spec c1 c) as [->|Hne]; [|apply IH].
  destruct Hs as [->|Hin]; [apply IH|contradiction].
Qed.

Lemma differ_given cs c o1 o2 :
  differ_only_in cs o1 o2 -> given c o1 = given c o2.
Proof.
  intros D. induction D as [|[c1 s1] [c2 s2] r1 r2 [Hf Hs] D IH];
    [reflexivity|].
  cbn in Hf. subst c2. cbn. f_equal. exact IH.
Qed.

End CommandLine.

(** ** The statements after the loop *)

Section AfterParse.

Context {C : Collaborators}.

(** Defaulting touches [err] and the two gamma factors only. *)
Lemma default_parameters_keeps a :
  binary (default_parameters a) = binary a
  /\ verbose (default_parameters a) = verbose a
  /\ input (default_parameters a) = input a
  /\ output (default_parameters a) = output a
  /\ ear (default_parameters a) = ear a
  /\ min (default_parameters a) = min a
  /\ max (default_parameters a) = max a
  /\ channel_left (default_parameters a) = channel_left a
  /\ channel_right (default_parameters a) = channel_right a.
Proof.
  unfold default_parameters.
  destruct (lt_lit (err a) d_1e_6); cbn -[lt_lit gt_lit];
    destruct (gt_lit (gamma_scaling_left a) d_1_9); cbn -[lt_lit gt_lit];
    destruct (gt_lit (gamma_scaling_right a) d_1_9);
    repeat split.
Qed.

Lemma default_parameters_err a :
  err (default_parameters a)
  = if lt_lit (err a) d_1e_6 then min a else err a.
Proof.
  unfold default_parameters.
  destruct (lt_lit (err a) d_1e_6); cbn -[lt_lit gt_lit];
    destruct (gt_lit (gamma_scaling_left a) d_1_9); cbn -[lt_lit gt_lit];
    destruct (gt_lit (gamma_scaling_right a) d_1_9);
    reflexivity.
Qed.

Lemma default_parameters_gamma_left a :
  gamma_scaling_left (default_parameters a)
  = if gt_lit (gamma_scaling_left a) d_1_9 then f_0_15
    else gamma_scaling_left a.
Proof.
  unfold default_parameters.
  destruct (lt_lit (err a) d_1e_6); cbn -[lt_lit gt_lit];
    destruct (gt_lit (gamma_scaling_left a) d_1_9); cbn -[lt_lit gt_lit];
    destruct (gt_lit (gamma_scaling_right a) d_1_9);
    reflexivity.
Qed.

Lemma default_parameters_gamma_right a :
  gamma_scaling_right (default_parameters a)
  = if gt_lit (gamma_scaling_right a) d_1_9 then f_0_15
    else gamma_scaling_right a.
Proof.
  unfold default_parameters.
  destruct (lt_lit (err a) d_1e_6); cbn -[lt_lit gt_lit];
    destruct (gt_lit (gamma_scaling_left a) d_1_9); cbn -[lt_lit gt_lit];
    destruct (gt_lit (gamma_scaling_right a) d_1_9);
    reflexivity.
Qed.

Lemma echo_input_continues a :
  echo_input a = (echo_input_trace a, Continue tt).
Proof.
  unfold echo_input_trace, echo_input.
  destruct (verbose a); [|reflexivity].
  destruct (eq_lit (channel_left a) d_0 && eq_lit (channel_right a) d_0);
    reflexivity.
Qed.

Lemma echo_stats_continues a n m :
  echo_stats a n m = (echo_stats_trace a n m, Continue tt).
Proof.
  unfold echo_stats_trace, echo_stats. destruct (verbose a); reflexivity.
Qed.

(** The failed check: usage text, exit code 1, nothing else. *)
Lemma after_parse_invalid a :
  invalid_input a = true ->
  run (after_parse a) = ([Cerr usage_text], Exit 1).
Proof.
  intros H. unfold after_parse, check_input. rewrite H. reflexivity.
Qed.

(** The reader throws. *)
Lemma after_parse_read_fails a what :
  invalid_input a = false ->
  read empty_mesh (input a) = IOException what ->
  run (after_parse a)
  = ((echo_input_trace (default_parameters a)
        ++ [CallRead (input a); Cerr ("Failed to read mesh: " ++ what)])%list,
     Exit 1).
Proof.
  intros H R. unfold after_parse, check_input. rewrite H.
  cbn [bind ret app]. rewrite echo_input_continues.
  unfold load_input.
  destruct (default_parameters_keeps a) as (_ & _ & -> & _).
  rewrite R. reflexivity.
Qed.

(** The reader returns a mesh: remeshing and writing follow. *)
Lemma after_parse_read_ok a m :
  invalid_input a = false ->
  read empty_mesh (input a) = Returned m ->
  let a' := default_parameters a in
  let m' := uniform_remeshing m (min a) 10%N true in
  let flags := {| use_binary := binary a |} in
  run (after_parse a)
  = ((echo_input_trace a'
        ++ [CallRead (input a); CallRemesh m (min a) 10%N true]
        ++ echo_stats_trace a' (to_int (n_faces m)) m'
        ++ CallWrite m' (output a) flags
        :: match write m' (output a) flags with
           | Returned _ => []
           | IOException what => [Cerr ("Failed to write mesh: " ++ what)]
           end)%list,
     match write m' (output a) flags with
     | Returned _ => Exit 0
     | IOException _ => Exit 1
     end).
Proof.
  intros H R a' m' flags. unfold after_parse, check_input. rewrite H.
  cbn [bind ret app]. fold a'. rewrite echo_input_continues.
  unfold load_input, remeshing, write_output.
  destruct (default_parameters_keeps a)
    as (Hb & _ & Hi & Ho & _ & Hm & _).
  fold a' in Hb, Hi, Ho, Hm. rewrite Hb, Hi, Ho, Hm, R.
  cbn [bind ret emit app]. fold m'. rewrite echo_stats_continues.
  fold flags.
  destruct (write m' (output a) flags); cbn; rewrite <- ?app_assoc;
    reflexivity.
Qed.

(** [main] once the loop is through. *)
Lemma main_parses u opts a :
  parses u opts a -> main u opts = run (after_parse a).
Proof.
  unfold parses, main, main_body. intros ->. cbn [bind].
  destruct (after_parse a) as [t o]. reflexivity.
Qed.

(** The three ways the loop can end. *)
Lemma main_cases u opts :
  (exists a, parses u opts a /\ main u opts = run (after_parse a))
  \/ main u opts = ([Cerr usage_text], Exit 1)
  \/ (main u opts = ([], Terminate)
      /\ exists c s,
          In (c, s) opts /\ takes_number c = true /\ stof s = None).
Proof.
  destruct (parse_loop_outcome opts (initial u)) as [[a P]|[P|[P E]]].
  - left. exists a. split; [exact P|apply main_parses; exact P].
  - right. left. unfold main, main_body. rewrite P. reflexivity.
  - right. right. split; [|exact E].
    unfold main, main_body. rewrite P. reflexivity.
Qed.

End AfterParse.

(** ** Traces *)

Section Traces.

Context {C : Collaborators}.

Lemma echo_input_only_cout a :
  forallb (@is_cout Mesh) (echo_input_trace a) = true.
Proof.
  unfold echo_input_trace, echo_input.
  destruct (verbose a); [|reflexivity].
  destruct (eq_lit (channel_left a) d_0 && eq_lit (channel_right a) d_0);
    reflexivity.
Qed.

Lemma echo_stats_only_cout a n m :
  forallb (@is_cout Mesh) (echo_stats_trace a n m) = true.
Proof.
  unfold echo_stats_trace, echo_stats. destruct (verbose a); reflexivity.
Qed.

(** A predicate that is false on every [Cout] finds nothing in a trace
    of [Cout]s. *)
Lemma filter_only_cout (p : event Mesh -> bool) t :
  (forall l, p (Cout l) = false) ->
  forallb (@is_cout Mesh) t = true -> filter p t = [].
Proof.
  intros Hp. induction t as [|e t IH]; [reflexivity|].
  cbn [forallb filter]. intros H. apply andb_true_iff in H.
  destruct H as [He Ht]. destruct e; try discriminate He.
  rewrite Hp. apply IH. exact Ht.
Qed.

Lemma existsb_only_cout (p : event Mesh -> bool) t :
  (forall l, p (Cout l) = false) ->
  forallb (@is_cout Mesh) t = true -> existsb p t = false.
Proof.
  intros Hp. induction t as [|e t IH]; [reflexivity|].
  cbn [forallb existsb]. intros H. apply andb_true_iff in H.
  destruct H as [He Ht]. destruct e; try discriminate He.
  rewrite Hp. apply IH. exact Ht.
Qed.

Lemma written_mesh_only_cout t t' :
  forallb (@is_cout Mesh) t = true ->
  written_mesh (t ++ t') = written_mesh t'.
Proof.
  induction t as [|e t IH]; [reflexivity|].
  cbn [forallb]. intros H. apply andb_true_iff in H.
  destruct H as [He Ht]. destruct e; try discriminate He.
  cbn. apply IH. exact Ht.
Qed.

(** The gamma factors are echoed by [echo_input] in verbose mode with
    both landmark coordinates zero, and nowhere else. *)
Lemma gamma_echo_of_echo_input a :
  filter is_gamma_echo (echo_input_trace a)
  = if verbose a && landmarks_unset a then [echo_gamma a] else [].
Proof.
  unfold echo_input_trace, echo_input, landmarks_unset.
  destruct (verbose a); [|reflexivity].
  destruct (eq_lit (channel_left a) d_0 && eq_lit (channel_right a) d_0);
    reflexivity.
Qed.

Lemma gamma_echo_of_echo_stats a n m :
  filter is_gamma_echo (echo_stats_trace a n m) = [].
Proof.
  unfold echo_stats_trace, echo_stats. destruct (verbose a); reflexivity.
Qed.

(** Where the gamma factors show in a whole run. *)
Lemma gamma_echo_of_after_parse a :
  filter is_gamma_echo (fst (run (after_parse a)))
  = if negb (invalid_input a) && verbose a && landmarks_unset a
    then [echo_gamma (default_parameters a)] else [].
Proof.
  destruct (default_parameters_keeps a)
    as (_ & Hv & _ & _ & _ & _ & _ & Hl & Hr).
  assert (HL : landmarks_unset (default_parameters a) = landmarks_unset a)
    by (unfold landmarks_unset; rewrite Hl, Hr; reflexivity).
  destruct (invalid_input a) eqn:V.
  - rewrite after_parse_invalid by assumption. reflexivity.
  - cbn [negb andb].
    destruct (read empty_mesh (input a)) as [m|what] eqn:R.
    + rewrite (after_parse_read_ok a V R). cbv zeta. cbn [fst].
      rewrite !filter_app, gamma_echo_of_echo_input,
        gamma_echo_of_echo_stats, Hv, HL.
      destruct (write _ _ _); cbn [filter is_gamma_echo app];
        rewrite app_nil_r; reflexivity.
    + rewrite (after_parse_read_fails a V R). cbn [fst].
      rewrite filter_app, gamma_echo_of_echo_input, Hv, HL.
      cbn [filter is_gamma_echo]. rewrite app_nil_r. reflexivity.
Qed.

End Traces.

(** ** What the program guarantees *)

Section Guarantees.

Context {C : Collaborators}.

(** The check fails on a variable the loop left null or too small. *)
Lemma invalid_input_min a :
  below (min a) (1 # 1000000) -> invalid_input a = true.
Proof.
  intros H. apply lt_lit_1e_6 in H. unfold invalid_input. rewrite H.
  reflexivity.
Qed.

Lemma invalid_input_max a :
  below (max a) (1 # 1000000) -> invalid_input a = true.
Proof.
  intros H. apply lt_lit_1e_6 in H. unfold invalid_input. rewrite H.
  rewrite orb_true_r. reflexivity.
Qed.

Lemma invalid_input_null a :
  ear a = None \/ input a = None \/ output a = None ->
  invalid_input a = true.
Proof.
  unfold invalid_input. intros [H|[H|H]]; rewrite H; cbn [is_null];
    rewrite ?orb_true_r; reflexivity.
Qed.

(** Invalid arguments the check does catch: a missing side, input path
    or output path, and a supplied length below [1e-6]. *)
Lemma invalid_arguments_rejected u opts a :
  parses u opts a ->
  last_arg "s" opts = None \/ last_arg "i" opts = None
  \/ last_arg "o" opts = None
  \/ (exists v, supplied "x" opts v /\ below v (1 # 1000000))
  \/ (exists v, supplied "y" opts v /\ below v (1 # 1000000)) ->
  main u opts = ([Cerr usage_text], Exit 1).
Proof.
  intros P H. rewrite (main_parses P). apply after_parse_invalid.
  destruct (parse_loop_post _ _ P) as [_ Q].
  destruct H as [H|[H|[H|[(v & S & B)|(v & S & B)]]]].
  - apply invalid_input_null. left.
    rewrite (post_ear Q). apply arg_str_absent. exact H.
  - apply invalid_input_null. right. left.
    rewrite (post_input Q). apply arg_str_absent. exact H.
  - apply invalid_input_null. right. right.
    rewrite (post_output Q). apply arg_str_absent. exact H.
  - apply invalid_input_min.
    rewrite (post_min Q), (arg_float_supplied _ S). exact B.
  - apply invalid_input_max.
    rewrite (post_max Q), (arg_float_supplied _ S). exact B.
Qed.

(** Valid arguments, a readable input and a writable output: exit
    code 0. *)
Lemma success_exits_0 u opts a m :
  parses u opts a ->
  invalid_input a = false ->
  read empty_mesh (input a) = Returned m ->
  write (uniform_remeshing m (min a) 10%N true) (output a)
        {| use_binary := binary a |} = Returned tt ->
  snd (main u opts) = Exit 0.
Proof.
  intros P V R W. rewrite (main_parses P), (after_parse_read_ok a V R).
  cbv zeta. cbn [snd]. rewrite W. reflexivity.
Qed.

(** A valid run with a readable input hands the uniformly remeshed
    mesh to the writer. *)
Lemma valid_run_written u opts a m :
  parses u opts a ->
  invalid_input a = false ->
  read empty_mesh (input a) = Returned m ->
  written_mesh (fst (main u opts))
  = Some (uniform_remeshing m (min a) 10%N true).
Proof.
  intros P V R. rewrite (main_parses P), (after_parse_read_ok a V R).
  cbv zeta. cbn [fst].
  rewrite written_mesh_only_cout by apply echo_input_only_cout.
  cbn [app written_mesh].
  rewrite written_mesh_only_cout by apply echo_stats_only_cout.
  reflexivity.
Qed.

(** The calls into the mesh library that a valid run with a readable
    input makes. *)
Lemma calls_of_valid_run u opts a m :
  parses u opts a ->
  invalid_input a = false ->
  read empty_mesh (input a) = Returned m ->
  let out := uniform_remeshing m (min a) 10%N true in
  filter (@is_call Mesh) (fst (main u opts))
  = [CallRead (input a); CallRemesh m (min a) 10%N true;
     CallWrite out (output a) {| use_binary := binary a |}].
Proof.
  intros P V R out. rewrite (main_parses P), (after_parse_read_ok a V R).
  cbv zeta. cbn [fst]. rewrite !filter_app.
  rewrite (filter_only_cout (@is_call Mesh))
    by (reflexivity || apply echo_input_only_cout).
  rewrite (filter_only_cout (@is_call Mesh) (echo_stats_trace _ _ _))
    by (reflexivity || apply echo_stats_only_cout).
  destruct (write _ _ _); reflexivity.
Qed.

(** C8: for every valid invocation whose input mesh is read, the
    remeshing operation is called exactly once, with the iteration count
    10 and the boolean [true], whatever the command line says. *)
Theorem remeshing_budget_fixed u opts a m :
  parses u opts a ->
  invalid_input a = false ->
  read empty_mesh (input a) = Returned m ->
  filter (@is_remesh Mesh) (fst (main u opts))
  = [CallRemesh m (min a) 10%N true].
Proof.
  intros P V R. rewrite (main_parses P), (after_parse_read_ok a V R).
  cbv zeta. cbn [fst]. rewrite !filter_app.
  rewrite (filter_only_cout (@is_remesh Mesh))
    by (reflexivity || apply echo_input_only_cout).
  rewrite (filter_only_cout (@is_remesh Mesh) (echo_stats_trace _ _ _))
    by (reflexivity || apply echo_stats_only_cout).
  destruct (write _ _ _); reflexivity.
Qed.

(** C6: when the reader throws, the program prints "Failed to read
    mesh: " and the reason on [std::cerr] and exits with code 1, with no
    remeshing and no write attempted; when the writer throws, it prints
    "Failed to write mesh: " and the reason and exits with code 1. *)
Theorem io_failure_exits_1 u opts a :
  parses u opts a ->
  invalid_input a = false ->
  (forall what,
      read empty_mesh (input a) = IOException what ->
      main u opts
      = ((echo_input_trace (default_parameters a)
          ++ [CallRead (input a);
              Cerr ("Failed to read mesh: " ++ what)])%list,
         Exit 1)
      /\ existsb (@is_remesh Mesh) (fst (main u opts)) = false
      /\ existsb (@is_write Mesh) (fst (main u opts)) = false)
  /\ (forall m what,
      read empty_mesh (input a) = Returned m ->
      let m' := uniform_remeshing m (min a) 10%N true in
      let flags := {| use_binary := binary a |} in
      write m' (output a) flags = IOException what ->
      main u opts
      = ((echo_input_trace (default_parameters a)
          ++ [CallRead (input a); CallRemesh m (min a) 10%N true]
          ++ echo_stats_trace (default_parameters a)
               (to_int (n_faces m)) m'
          ++ [CallWrite m' (output a) flags;
              Cerr ("Failed to write mesh: " ++ what)])%list,
         Exit 1)).
Proof.
  intros P V. split.
  - intros what R. rewrite (main_parses P), (after_parse_read_fails a V R).
    cbn [fst]. rewrite !existsb_app.
    rewrite (existsb_only_cout (@is_remesh Mesh)),
      (existsb_only_cout (@is_write Mesh))
      by (reflexivity || apply echo_input_only_cout).
    repeat split.
  - intros m what R m' flags W.
    rewrite (main_parses P), (after_parse_read_ok a V R).
    cbv zeta. fold m' flags. rewrite W. reflexivity.
Qed.

(** C5: with no side on the command line, or with a minimum edge
    length that is zero or negative, the program never calls the reader
    (nor the remesher, nor the writer): it prints the usage text and
    exits with code 1, unless [std::stof] throws on some argument first,
    which ends the program even earlier. *)
Theorem rejected_before_loading u opts :
  last_arg "s" opts = None
  \/ (exists v, supplied "x" opts v /\ at_most v 0) ->
  existsb (@is_read Mesh) (fst (main u opts)) = false
  /\ existsb (@is_call Mesh) (fst (main u opts)) = false
  /\ (main u opts = ([Cerr usage_text], Exit 1)
      \/ main u opts = ([], Terminate))
  /\ ((forall c s,
          In (c, s) opts -> takes_number c = true -> stof s <> None) ->
      main u opts = ([Cerr usage_text], Exit 1)).
Proof.
  intros H.
  assert (D : main u opts = ([Cerr usage_text], Exit 1)
              \/ (main u opts = ([], Terminate)
                  /\ exists c s,
                      In (c, s) opts /\ takes_number c = true
                      /\ stof s = None)).
  { destruct (main_cases u opts) as [(a & P & _)|[E|E]];
      [left|left; exact E|right; exact E].
    apply (invalid_arguments_rejected P).
    destruct H as [H|(v & S & B)]; [left; exact H|].
    right. right. right. left. exists v. split; [exact S|].
    apply (at_most_below B). reflexivity. }
  destruct D as [E|[E (c & s & Hin & T & N)]]; rewrite E.
  - repeat split; try reflexivity. left. reflexivity.
  - repeat split; try reflexivity.
    + right. reflexivity.
    + intros A. exfalso. exact (A c s Hin T N).
Qed.

End Guarantees.

(** ** Thresholds and defaults *)

Section Defaults.

Context {C : Collaborators}.

(** A maximum error below [1e-6] gives the same run as no maximum
    error at all. *)
Lemma small_err_as_unset a :
  lt_lit (err a) d_1e_6 = true ->
  default_parameters a = default_parameters (set_err f_int_0 a).
Proof.
  intros H. unfold default_parameters. rewrite H.
  cbn -[lt_lit gt_lit]. reflexivity.
Qed.

Lemma after_parse_small_err a :
  lt_lit (err a) d_1e_6 = true ->
  after_parse a = after_parse (set_err f_int_0 a).
Proof.
  intros H. unfold after_parse. rewrite (small_err_as_unset a H).
  reflexivity.
Qed.

(** C10: the tests compare with [1e-6], not with 0.  A supplied
    minimum or maximum edge length below [1e-6], positive ones included,
    ends the run with the usage text and exit code 1; a supplied maximum
    error below [1e-6], positive ones included, is replaced by the
    minimum edge length without a message, and the run is the one of a
    command line that leaves the maximum error unset. *)
Theorem threshold_1e_6 u opts a :
  parses u opts a ->
  (forall v,
      supplied "x" opts v \/ supplied "y" opts v ->
      below v (1 # 1000000) ->
      main u opts = ([Cerr usage_text], Exit 1))
  /\ (forall v,
      supplied "e" opts v ->
      below v (1 # 1000000) ->
      err (default_parameters a) = min a
      /\ main u opts = run (after_parse (set_err f_int_0 a))).
Proof.
  intros P. destruct (parse_loop_post _ _ P) as [_ Q]. split.
  - intros v [S|S] B; apply (invalid_arguments_rejected P).
    + right. right. right. left. exists v. split; assumption.
    + right. right. right. right. exists v. split; assumption.
  - intros v S B.
    assert (L : lt_lit (err a) d_1e_6 = true).
    { apply lt_lit_1e_6. rewrite (post_err Q), (arg_float_supplied _ S).
      exact B. }
    split.
    + rewrite default_parameters_err, L. reflexivity.
    + rewrite (main_parses P), (after_parse_small_err a L). reflexivity.
Qed.

(** C7, as the program has it: with no maximum error on the command
    line, the maximum error of the run is the supplied minimum edge
    length; a supplied maximum error of at least [1e-6] is used as it
    is. *)
Theorem max_error_default u opts a :
  parses u opts a ->
  (given "e" opts = false ->
   forall v, supplied "x" opts v -> err (default_parameters a) = v)
  /\ (forall e,
      supplied "e" opts e ->
      at_least e (1 # 1000000) ->
      err (default_parameters a) = e).
Proof.
  intros P. destruct (parse_loop_post _ _ P) as [_ Q]. split.
  - intros G v S. rewrite default_parameters_err.
    rewrite (post_err Q), (arg_float_absent _ _ _ (given_false_last_arg _ _ G)).
    rewrite (post_min Q), (arg_float_supplied _ S). reflexivity.
  - intros e S A. rewrite default_parameters_err.
    rewrite (post_err Q), (arg_float_supplied _ S).
    destruct (lt_lit e d_1e_6) eqn:L; [|reflexivity].
    apply lt_lit_1e_6 in L. unfold at_least, above, equal_to, below in *.
    destruct A as [A|A]; congruence.
Qed.

(** C3: a supplied gamma factor above 1.9 is replaced by the [float]
    0.15, one at or below 1.9 is kept as it is, for the left factor
    ([-g]) and for the right one ([-h]); and the values the program
    echoes are the ones after this replacement. *)
Theorem gamma_above_1_9_replaced u opts a :
  parses u opts a ->
  (forall g,
      supplied "g" opts g ->
      (above g (19 # 10) ->
       gamma_scaling_left (default_parameters a) = f_0_15)
      /\ (at_most g (19 # 10) ->
          gamma_scaling_left (default_parameters a) = g))
  /\ (forall h,
      supplied "h" opts h ->
      (above h (19 # 10) ->
       gamma_scaling_right (default_parameters a) = f_0_15)
      /\ (at_most h (19 # 10) ->
          gamma_scaling_right (default_parameters a) = h))
  /\ (forall e,
      In e (fst (main u opts)) -> is_gamma_echo e = true ->
      e = echo_gamma (default_parameters a)).
Proof.
  intros P. destruct (parse_loop_post _ _ P) as [_ Q].
  split; [|split].
  - intros g S. rewrite default_parameters_gamma_left.
    rewrite (post_gamma_scaling_left Q), (arg_float_supplied _ S).
    split; intros H.
    + apply gt_lit_1_9 in H. rewrite H. reflexivity.
    + destruct (gt_lit g d_1_9) eqn:G; [|reflexivity].
      apply gt_lit_1_9 in G. destruct (at_most_not_above H G).
  - intros h S. rewrite default_parameters_gamma_right.
    rewrite (post_gamma_scaling_right Q), (arg_float_supplied _ S).
    split; intros H.
    + apply gt_lit_1_9 in H. rewrite H. reflexivity.
    + destruct (gt_lit h d_1_9) eqn:G; [|reflexivity].
      apply gt_lit_1_9 in G. destruct (at_most_not_above H G).
  - intros e Hin He.
    assert (F : In e (filter is_gamma_echo (fst (main u opts))))
      by (apply filter_In; split; assumption).
    rewrite (main_parses P), gamma_echo_of_after_parse in F.
    destruct (negb (invalid_input a) && verbose a && landmarks_unset a);
      [|destruct F].
    destruct F as [F|[]]. symmetry. exact F.
Qed.

End Defaults.

(** ** What the grading parameters do not change *)

Section Independence.

Context {C : Collaborators}.

Local Open Scope char_scope.

Lemma last_arg_In c opts s :
  last_arg c opts = Some s -> In (c, s) opts.
Proof.
  induction opts as [|[c' s'] rest IH]; intros H; [discriminate|].
  cbn [last_arg] in H. destruct (last_arg c rest) as [r|].
  - right. apply IH. exact H.
  - destruct (Ascii.eqb_spec c' c) as [->|_]; [|discriminate].
    injection H as ->. left. reflexivity.
Qed.

(** When the loop runs to its end, [std::stof] has read every argument
    of [-x]. *)
Lemma parse_loop_reads_min opts : forall a0 t a s,
  parse_loop opts a0 = (t, Continue a) ->
  In ("x", s) opts -> exists v, stof s = Some v.
Proof.
  induction opts as [|[c' s'] rest IH]; intros a0 t a s H Hin;
    [destruct Hin|].
  cbn [parse_loop] in H.
  destruct (handle_option c' s' a0) as [t1 [a1|st]] eqn:E;
    [|discriminate H].
  cbn [bind] in H.
  destruct (parse_loop rest a1) as [t2 o2] eqn:P.
  injection H as _ ->.
  destruct Hin as [Hin|Hin]; [|eapply IH; eassumption].
  injection Hin as -> ->.
  cbn in E. unfold stof_optarg in E.
  destruct (stof s) as [v|]; [exists v; reflexivity|discriminate E].
Qed.

Lemma min_of_given_x u opts a :
  parses u opts a -> given "x" opts = true -> supplied "x" opts (min a).
Proof.
  intros P G. destruct (given_true_last_arg _ _ G) as [s L].
  assert (R : exists v, stof s = Some v).
  { eapply parse_loop_reads_min; [exact P|]. apply last_arg_In. exact L. }
  destruct R as [v E].
  exists s. split; [exact L|].
  destruct (parse_loop_post _ _ P) as [_ Q].
  rewrite (post_min Q), (arg_float_last _ _ _ L E). exact E.
Qed.

(** C2: two valid invocations (arguments that pass the check, a
    readable input mesh) that agree on every option other than [-y],
    [-e], [-s], [-l], [-r], [-g] and [-h], whether those are present,
    absent, repeated or differ in their arguments, make the same calls
    into the mesh library and hand the same mesh to the writer: the
    input mesh, uniformly remeshed to the minimum edge length. *)
Theorem output_ignores_grading_parameters u1 u2 opts1 opts2 a1 a2 m :
  (forall c, ~ In c grading_options ->
             last_arg c opts1 = last_arg c opts2) ->
  given "x" opts1 = true ->
  parses u1 opts1 a1 -> invalid_input a1 = false ->
  parses u2 opts2 a2 -> invalid_input a2 = false ->
  read empty_mesh (input a1) = Returned m ->
  let out := uniform_remeshing m (min a1) 10%N true in
  written_mesh (fst (main u1 opts1)) = Some out
  /\ written_mesh (fst (main u2 opts2)) = Some out
  /\ filter (@is_call Mesh) (fst (main u2 opts2))
     = filter (@is_call Mesh) (fst (main u1 opts1)).
Proof.
  intros D G P1 V1 P2 V2 R1 out.
  destruct (parse_loop_post _ _ P1) as [_ Q1].
  destruct (parse_loop_post _ _ P2) as [_ Q2].
  assert (Di : last_arg "i" opts1 = last_arg "i" opts2)
    by (apply D; cbn; intuition discriminate).
  assert (Do : last_arg "o" opts1 = last_arg "o" opts2)
    by (apply D; cbn; intuition discriminate).
  assert (Db : last_arg "b" opts1 = last_arg "b" opts2)
    by (apply D; cbn; intuition discriminate).
  assert (Dx : last_arg "x" opts1 = last_arg "x" opts2)
    by (apply D; cbn; intuition discriminate).
  assert (Hi : input a2 = input a1).
  { rewrite (post_input Q1), (post_input Q2), !arg_str_of_last_arg, Di.
    reflexivity. }
  assert (Ho : output a2 = output a1).
  { rewrite (post_output Q1), (post_output Q2), !arg_str_of_last_arg, Do.
    reflexivity. }
  assert (Hb : binary a2 = binary a1).
  { rewrite (post_binary Q1), (post_binary Q2), !given_of_last_arg, Db.
    reflexivity. }
  assert (Hm : min a2 = min a1).
  { destruct (min_of_given_x P1 G) as (s & L & E).
    rewrite (post_min Q2), (post_min Q1).
    rewrite (arg_float_last _ _ _ L E).
    rewrite Dx in L. apply (arg_float_last _ _ _ L E). }
  assert (R2 : read empty_mesh (input a2) = Returned m)
    by (rewrite Hi; exact R1).
  rewrite (valid_run_written P1 V1 R1), (valid_run_written P2 V2 R2).
  rewrite (calls_of_valid_run P1 V1 R1), (calls_of_valid_run P2 V2 R2).
  cbv zeta. rewrite Hm, Hi, Ho, Hb. repeat split.
Qed.

(** The echo of the input depends on the gamma factors only in verbose
    mode with both landmark coordinates zero. *)
Lemma echo_input_same_but_gamma a b :
  same_but_gamma a b ->
  verbose a && landmarks_unset a = false ->
  echo_input a = echo_input b.
Proof.
  destruct a as [bi ve ip op mi ma er cl cr gl gr ea].
  destruct b as [bi' ve' ip' op' mi' ma' er' cl' cr' gl' gr' ea'].
  unfold same_but_gamma, landmarks_unset, echo_input. cbn -[eq_lit].
  intros (<- & <- & <- & <- & <- & <- & <- & <- & <- & <-) H.
  destruct ve; [|reflexivity]. cbn [andb] in H. rewrite H. reflexivity.
Qed.

Lemma default_parameters_same_but_gamma a b :
  same_but_gamma a b ->
  same_but_gamma (default_parameters a) (default_parameters b).
Proof.
  intros (H1 & H2 & H3 & H4 & H5 & H6 & H7 & H8 & H9 & H10).
  destruct (default_parameters_keeps a)
    as (A1 & A2 & A3 & A4 & A5 & A6 & A7 & A8 & A9).
  destruct (default_parameters_keeps b)
    as (B1 & B2 & B3 & B4 & B5 & B6 & B7 & B8 & B9).
  unfold same_but_gamma.
  rewrite A1, A2, A3, A4, A5, A6, A7, A8, A9,
    B1, B2, B3, B4, B5, B6, B7, B8, B9, !default_parameters_err,
    H8, H6.
  repeat split; assumption.
Qed.

(** Locals that agree on all but the gamma factors give the same run,
    unless the run is verbose with both landmark coordinates zero. *)
Lemma after_parse_same_but_gamma a b :
  same_but_gamma a b ->
  verbose a && landmarks_unset a = false ->
  after_parse a = after_parse b.
Proof.
  intros S H.
  assert (E : echo_input (default_parameters a)
              = echo_input (default_parameters b)).
  { apply echo_input_same_but_gamma.
    - apply default_parameters_same_but_gamma. exact S.
    - destruct (default_parameters_keeps a)
        as (_ & Hv & _ & _ & _ & _ & _ & Hl & Hr).
      unfold landmarks_unset in *. rewrite Hv, Hl, Hr. exact H. }
  destruct (default_parameters_same_but_gamma S)
    as (D1 & D2 & D3 & D4 & _ & D6 & _).
  destruct S as (S1 & S2 & S3 & S4 & S5 & S6 & S7 & _).
  unfold after_parse, check_input, invalid_input, load_input, remeshing,
    echo_stats, write_output.
  cbv zeta. rewrite E, D1, D2, D3, D4, D6, S3, S4, S5, S6, S7.
  reflexivity.
Qed.

Lemma differ_gamma_same_locals u opts opts' a a' :
  differ_only_in gamma_options opts opts' ->
  parses u opts a -> parses u opts' a' -> same_but_gamma a a'.
Proof.
  intros D P P'.
  destruct (parse_loop_post _ _ P) as [_ Q].
  destruct (parse_loop_post _ _ P') as [_ Q'].
  unfold same_but_gamma.
  rewrite (post_binary Q), (post_binary Q'), (post_verbose Q),
    (post_verbose Q'), (post_input Q), (post_input Q'), (post_output Q),
    (post_output Q'), (post_ear Q), (post_ear Q'), (post_min Q),
    (post_min Q'), (post_max Q), (post_max Q'), (post_err Q),
    (post_err Q'), (post_channel_left Q), (post_channel_left Q'),
    (post_channel_right Q), (post_channel_right Q').
  rewrite !(differ_given _ D).
  repeat split;
    first [ eapply differ_arg_str | eapply differ_arg_float ];
    first [ exact D | cbn; intuition discriminate ].
Qed.

(** C9: the gamma factors are echoed only in verbose mode with both
    landmark coordinates zero; and when a landmark coordinate other
    than zero is supplied, the gamma factors are not echoed and the
    whole run is the same whatever gamma factors are supplied. *)
Theorem explicit_landmarks_silence_gamma u opts a :
  parses u opts a ->
  (filter is_gamma_echo (fst (main u opts)) <> [] ->
   verbose a = true
   /\ equal_to (channel_left a) 0 /\ equal_to (channel_right a) 0)
  /\ ((exists v, supplied "l" opts v /\ ~ equal_to v 0)
      \/ (exists v, supplied "r" opts v /\ ~ equal_to v 0) ->
      filter is_gamma_echo (fst (main u opts)) = []
      /\ forall opts' a',
          differ_only_in gamma_options opts opts' ->
          parses u opts' a' ->
          main u opts' = main u opts).
Proof.
  intros P. destruct (parse_loop_post _ _ P) as [_ Q].
  rewrite (main_parses P), gamma_echo_of_after_parse. split.
  - intros H.
    destruct (invalid_input a); [destruct H; reflexivity|].
    destruct (verbose a); [|destruct H; reflexivity].
    destruct (landmarks_unset a) eqn:L; [|destruct H; reflexivity].
    unfold landmarks_unset in L. apply andb_true_iff in L.
    destruct L as [L1 L2]. apply eq_lit_0 in L1. apply eq_lit_0 in L2.
    repeat split; assumption.
  - intros H.
    assert (L : landmarks_unset a = false).
    { unfold landmarks_unset. apply andb_false_iff.
      destruct H as [(v & S & N)|(v & S & N)]; [left|right];
        [ rewrite (post_channel_left Q) | rewrite (post_channel_right Q) ];
        rewrite (arg_float_supplied _ S);
        destruct (eq_lit v d_0) eqn:E; try reflexivity;
        apply eq_lit_0 in E; contradiction. }
    rewrite L, andb_false_r. split; [reflexivity|].
    intros opts' a' D P'.
    rewrite (main_parses P'). f_equal. symmetry.
    apply after_parse_same_but_gamma.
    + exact (differ_gamma_same_locals D P P').
    + rewrite L. apply andb_false_r.
Qed.

End Independence.

(** ** Runs in the concrete environment *)

Section Runs.

Local Existing Instance Demo.env.

Lemma usage_example_run :
  snd (main Demo.zeros Demo.usage_example) = Exit 0
  /\ written_mesh (fst (main Demo.zeros Demo.usage_example))
     = Some (Demo.demo_remeshing Demo.head Demo.f_0_5 10%N true).
Proof. split; reflexivity. Qed.

(** C1: the program does not grade.  On two command lines that ask for
    grading towards the left ear and towards the right ear, with
    different maximum lengths, maximum errors, landmarks and gamma
    factors, the only remeshing call is the uniform one with the
    minimum edge length, 10 and [true], and the two runs write the same
    mesh. *)
Theorem grading_parameters_not_consumed :
  filter (@is_remesh Mesh) (fst (main Demo.zeros Demo.graded_left))
  = [CallRemesh Demo.head Demo.f_0_5 10%N true]
  /\ filter (@is_remesh Mesh) (fst (main Demo.zeros Demo.graded_right))
     = [CallRemesh Demo.head Demo.f_0_5 10%N true]
  /\ written_mesh (fst (main Demo.zeros Demo.graded_left))
     = written_mesh (fst (main Demo.zeros Demo.graded_right))
  /\ snd (main Demo.zeros Demo.graded_left) = Exit 0
  /\ snd (main Demo.zeros Demo.graded_right) = Exit 0.
Proof. repeat split; reflexivity. Qed.

(** C4: a command line without [-x] is not rejected when the
    uninitialised [min] happens to hold 1: no usage text, the mesh is
    read, remeshed to edge length 1 and written, and the exit code
    is 0. *)
Theorem missing_min_not_rejected :
  given "x"%char Demo.no_min = false
  /\ main Demo.ones Demo.no_min
     = ([CallRead (Some "head.ply");
         CallRemesh Demo.head Demo.f_1 10%N true;
         CallWrite (Demo.demo_remeshing Demo.head Demo.f_1 10%N true)
           (Some "head_left.ply") {| use_binary := false |}],
        Exit 0).
Proof. split; reflexivity. Qed.

(** The same command line with zeros on the stack is rejected. *)
Lemma missing_min_rejected_on_zeros :
  main Demo.zeros Demo.no_min = ([Cerr usage_text], Exit 1).
Proof. reflexivity. Qed.

(** C7, as stated, fails: a supplied maximum error of 5e-7 is positive
    and is not the maximum error of the run, which is the minimum edge
    length 0.5. *)
Lemma tiny_max_error_not_used :
  parses Demo.zeros Demo.tiny_error
    (Demo.locals_of Demo.zeros Demo.tiny_error)
  /\ invalid_input (Demo.locals_of Demo.zeros Demo.tiny_error) = false
  /\ supplied "e"%char Demo.tiny_error Demo.f_5e_7
  /\ above Demo.f_5e_7 0
  /\ err (default_parameters (Demo.locals_of Demo.zeros Demo.tiny_error))
     <> Demo.f_5e_7
  /\ err (default_parameters (Demo.locals_of Demo.zeros Demo.tiny_error))
     = Demo.f_0_5.
Proof.
  repeat split; try reflexivity.
  - exists "5e-7". split; reflexivity.
  - intros H. apply (f_equal datum) in H. vm_compute in H. discriminate H.
Qed.

End Runs.

(** ** The guarantees at work on concrete command lines *)

Section Instances.

Local Existing Instance Demo.env.

Lemma remeshing_budget_fixed_witness :
  let a := Demo.locals_of Demo.zeros Demo.usage_example in
  parses Demo.zeros Demo.usage_example a
  /\ invalid_input a = false
  /\ read empty_mesh (input a) = Returned Demo.head
  /\ filter (@is_remesh Mesh) (fst (main Demo.zeros Demo.usage_example))
     = [CallRemesh Demo.head (min a) 10%N true].
Proof.
  intros a.
  assert (P : parses Demo.zeros Demo.usage_example a) by reflexivity.
  assert (V : invalid_input a = false) by reflexivity.
  assert (R : read empty_mesh (input a) = Returned Demo.head)
    by reflexivity.
  exact (conj P (conj V (conj R (remeshing_budget_fixed P V R)))).
Defined.

Lemma io_failure_exits_1_witness :
  let a := Demo.locals_of Demo.zeros Demo.unreadable in
  let b := Demo.locals_of Demo.zeros Demo.unwritable in
  (parses Demo.zeros Demo.unreadable a
   /\ invalid_input a = false
   /\ read empty_mesh (input a) = IOException "cannot open file"
   /\ main Demo.zeros Demo.unreadable
      = ([CallRead (Some "missing.ply");
          Cerr "Failed to read mesh: cannot open file"], Exit 1))
  /\ (parses Demo.zeros Demo.unwritable b
      /\ invalid_input b = false
      /\ read empty_mesh (input b) = Returned Demo.head
      /\ write (Demo.demo_remeshing Demo.head Demo.f_0_5 10%N true)
           (output b) {| use_binary := binary b |}
         = IOException "cannot write file"
      /\ snd (main Demo.zeros Demo.unwritable) = Exit 1).
Proof.
  intros a b.
  assert (Pa : parses Demo.zeros Demo.unreadable a) by reflexivity.
  assert (Va : invalid_input a = false) by reflexivity.
  assert (Ra : read empty_mesh (input a) = IOException "cannot open file")
    by reflexivity.
  assert (Pb : parses Demo.zeros Demo.unwritable b) by reflexivity.
  assert (Vb : invalid_input b = false) by reflexivity.
  assert (Rb : read empty_mesh (input b) = Returned Demo.head)
    by reflexivity.
  assert (Wb : write (Demo.demo_remeshing Demo.head Demo.f_0_5 10%N true)
                 (output b) {| use_binary := binary b |}
               = IOException "cannot write file") by reflexivity.
  split.
  - refine (conj Pa (conj Va (conj Ra _))).
    exact (proj1 (proj1 (io_failure_exits_1 Pa Va) _ Ra)).
  - refine (conj Pb (conj Vb (conj Rb (conj Wb _)))).
    exact (f_equal snd (proj2 (io_failure_exits_1 Pb Vb) _ _ Rb Wb)).
Defined.

Lemma rejected_before_loading_witness :
  ((exists v, supplied "x"%char Demo.negative_min v /\ at_most v 0)
   /\ existsb (@is_read Mesh) (fst (main Demo.zeros Demo.negative_min))
      = false
   /\ main Demo.zeros Demo.negative_min = ([Cerr usage_text], Exit 1))
  /\ (last_arg "s"%char Demo.no_side = None
      /\ existsb (@is_read Mesh) (fst (main Demo.ones Demo.no_side))
         = false
      /\ main Demo.ones Demo.no_side = ([Cerr usage_text], Exit 1)).
Proof.
  assert (H : exists v, supplied "x"%char Demo.negative_min v
                        /\ at_most v 0).
  { exists Demo.f_m1. split.
    - exists "-1". split; reflexivity.
    - left. reflexivity. }
  assert (S : last_arg "s"%char Demo.no_side = None) by reflexivity.
  pose proof (@rejected_before_loading _ Demo.zeros Demo.negative_min
                (or_intror H)) as (R & _ & _ & U).
  pose proof (@rejected_before_loading _ Demo.ones Demo.no_side
                (or_introl S)) as (R' & _ & _ & U').
  split.
  - refine (conj H (conj R (U _))).
    intros c s Hin T.
    repeat (destruct Hin as [Hin|Hin];
            [injection Hin as <- <-;
             first [discriminate T | vm_compute; discriminate]|]).
    destruct Hin.
  - refine (conj S (conj R' (U' _))).
    intros c s Hin T.
    repeat (destruct Hin as [Hin|Hin];
            [injection Hin as <- <-;
             first [discriminate T | vm_compute; discriminate]|]).
    destruct Hin.
Defined.

Lemma threshold_1e_6_witness :
  let a := Demo.locals_of Demo.zeros Demo.tiny_min in
  let b := Demo.locals_of Demo.zeros Demo.tiny_error in
  (parses Demo.zeros Demo.tiny_min a
   /\ supplied "x"%char Demo.tiny_min Demo.f_5e_7
   /\ above Demo.f_5e_7 0 /\ below Demo.f_5e_7 (1 # 1000000)
   /\ main Demo.zeros Demo.tiny_min = ([Cerr usage_text], Exit 1))
  /\ (parses Demo.zeros Demo.tiny_error b
      /\ supplied "e"%char Demo.tiny_error Demo.f_5e_7
      /\ err (default_parameters b) = min b
      /\ main Demo.zeros Demo.tiny_error
         = run (after_parse (set_err f_int_0 b))).
Proof.
  intros a b.
  assert (Pa : parses Demo.zeros Demo.tiny_min a) by reflexivity.
  assert (Sa : supplied "x"%char Demo.tiny_min Demo.f_5e_7)
    by (exists "5e-7"; split; reflexivity).
  assert (Pb : parses Demo.zeros Demo.tiny_error b) by reflexivity.
  assert (Sb : supplied "e"%char Demo.tiny_error Demo.f_5e_7)
    by (exists "5e-7"; split; reflexivity).
  assert (A : above Demo.f_5e_7 0) by reflexivity.
  assert (B : below Demo.f_5e_7 (1 # 1000000)) by reflexivity.
  split.
  - refine (conj Pa (conj Sa (conj A (conj B _)))).
    exact (proj1 (threshold_1e_6 Pa) _ (or_introl Sa) B).
  - refine (conj Pb (conj Sb _)).
    exact (proj2 (threshold_1e_6 Pb) _ Sb B).
Defined.

Lemma max_error_default_witness :
  let a := Demo.locals_of Demo.zeros Demo.plain in
  let b := Demo.locals_of Demo.zeros Demo.with_error in
  (parses Demo.zeros Demo.plain a
   /\ given "e"%char Demo.plain = false
   /\ supplied "x"%char Demo.plain Demo.f_0_5
   /\ err (default_parameters a) = Demo.f_0_5)
  /\ (parses Demo.zeros Demo.with_error b
      /\ supplied "e"%char Demo.with_error Demo.f_0_3
      /\ at_least Demo.f_0_3 (1 # 1000000)
      /\ err (default_parameters b) = Demo.f_0_3).
Proof.
  intros a b.
  assert (Pa : parses Demo.zeros Demo.plain a) by reflexivity.
  assert (Ga : given "e"%char Demo.plain = false) by reflexivity.
  assert (Sa : supplied "x"%char Demo.plain Demo.f_0_5)
    by (exists "0.5"; split; reflexivity).
  assert (Pb : parses Demo.zeros Demo.with_error b) by reflexivity.
  assert (Sb : supplied "e"%char Demo.with_error Demo.f_0_3)
    by (exists "0.3"; split; reflexivity).
  assert (Ab : at_least Demo.f_0_3 (1 # 1000000))
    by (left; reflexivity).
  split.
  - refine (conj Pa (conj Ga (conj Sa _))).
    exact (proj1 (max_error_default Pa) Ga _ Sa).
  - refine (conj Pb (conj Sb (conj Ab _))).
    exact (proj2 (max_error_default Pb) _ Sb Ab).
Defined.

Lemma gamma_above_1_9_replaced_witness :
  let a := Demo.locals_of Demo.zeros Demo.gamma_boundary in
  parses Demo.zeros Demo.gamma_boundary a
  /\ (supplied "g"%char Demo.gamma_boundary Demo.f_1_900001
      /\ above Demo.f_1_900001 (19 # 10)
      /\ gamma_scaling_left (default_parameters a) = f_0_15)
  /\ (supplied "h"%char Demo.gamma_boundary Demo.f_1_9
      /\ at_most Demo.f_1_9 (19 # 10)
      /\ gamma_scaling_right (default_parameters a) = Demo.f_1_9)
  /\ In (echo_gamma (default_parameters a))
        (fst (main Demo.zeros Demo.gamma_boundary)).
Proof.
  intros a.
  assert (P : parses Demo.zeros Demo.gamma_boundary a) by reflexivity.
  assert (Sg : supplied "g"%char Demo.gamma_boundary Demo.f_1_900001)
    by (exists "1.900001"; split; reflexivity).
  assert (Sh : supplied "h"%char Demo.gamma_boundary Demo.f_1_9)
    by (exists "1.9"; split; reflexivity).
  assert (Ag : above Demo.f_1_900001 (19 # 10)) by reflexivity.
  assert (Ah : at_most Demo.f_1_9 (19 # 10)) by (left; reflexivity).
  destruct (gamma_above_1_9_replaced P) as (L & R & _).
  refine (conj P (conj (conj Sg (conj Ag _))
                   (conj (conj Sh (conj Ah _)) _))).
  - exact (proj1 (L _ Sg) Ag).
  - exact (proj2 (R _ Sh) Ah).
  - vm_compute. do 6 right. left. reflexivity.
Defined.

Lemma output_ignores_grading_parameters_witness :
  let a1 := Demo.locals_of Demo.zeros Demo.graded_left in
  let a2 := Demo.locals_of Demo.ones Demo.graded_right in
  let b1 := Demo.locals_of Demo.zeros Demo.with_error in
  let b2 := Demo.locals_of Demo.zeros Demo.plain in
  let out := Demo.demo_remeshing Demo.head Demo.f_0_5 10%N true in
  ((forall c, ~ In c grading_options ->
              last_arg c Demo.graded_left = last_arg c Demo.graded_right)
   /\ given "x"%char Demo.graded_left = true
   /\ parses Demo.zeros Demo.graded_left a1 /\ invalid_input a1 = false
   /\ parses Demo.ones Demo.graded_right a2 /\ invalid_input a2 = false
   /\ read empty_mesh (input a1) = Returned Demo.head
   /\ written_mesh (fst (main Demo.zeros Demo.graded_left)) = Some out
   /\ written_mesh (fst (main Demo.ones Demo.graded_right)) = Some out
   /\ filter (@is_call Mesh) (fst (main Demo.ones Demo.graded_right))
      = filter (@is_call Mesh) (fst (main Demo.zeros Demo.graded_left)))
  /\ ((forall c, ~ In c grading_options ->
                 last_arg c Demo.with_error = last_arg c Demo.plain)
      /\ given "x"%char Demo.with_error = true
      /\ parses Demo.zeros Demo.with_error b1 /\ invalid_input b1 = false
      /\ parses Demo.zeros Demo.plain b2 /\ invalid_input b2 = false
      /\ read empty_mesh (input b1) = Returned Demo.head
      /\ written_mesh (fst (main Demo.zeros Demo.with_error)) = Some out
      /\ written_mesh (fst (main Demo.zeros Demo.plain)) = Some out
      /\ filter (@is_call Mesh) (fst (main Demo.zeros Demo.plain))
         = filter (@is_call Mesh) (fst (main Demo.zeros Demo.with_error))).
Proof.
  intros a1 a2 b1 b2 out.
  assert (D : forall c, ~ In c grading_options ->
                last_arg c Demo.graded_left = last_arg c Demo.graded_right).
  { intros c H. destruct c as [[] [] [] [] [] [] [] []];
      try reflexivity; exfalso; apply H; cbn; auto 10. }
  assert (G : given "x"%char Demo.graded_left = true) by reflexivity.
  assert (P1 : parses Demo.zeros Demo.graded_left a1) by reflexivity.
  assert (V1 : invalid_input a1 = false) by reflexivity.
  assert (P2 : parses Demo.ones Demo.graded_right a2) by reflexivity.
  assert (V2 : invalid_input a2 = false) by reflexivity.
  assert (R1 : read empty_mesh (input a1) = Returned Demo.head)
    by reflexivity.
  assert (D' : forall c, ~ In c grading_options ->
                 last_arg c Demo.with_error = last_arg c Demo.plain).
  { intros c H. destruct c as [[] [] [] [] [] [] [] []];
      try reflexivity; exfalso; apply H; cbn; auto 10. }
  assert (G' : given "x"%char Demo.with_error = true) by reflexivity.
  assert (P1' : parses Demo.zeros Demo.with_error b1) by reflexivity.
  assert (V1' : invalid_input b1 = false) by reflexivity.
  assert (P2' : parses Demo.zeros Demo.plain b2) by reflexivity.
  assert (V2' : invalid_input b2 = false) by reflexivity.
  assert (R1' : read empty_mesh (input b1) = Returned Demo.head)
    by reflexivity.
  split.
  - exact (conj D (conj G (conj P1 (conj V1 (conj P2 (conj V2 (conj R1
             (@output_ignores_grading_parameters Demo.env
                Demo.zeros Demo.ones Demo.graded_left Demo.graded_right
                a1 a2 Demo.head D G P1 V1 P2 V2 R1)))))))).
  - exact (conj D' (conj G' (conj P1' (conj V1' (conj P2' (conj V2'
             (conj R1'
                (@output_ignores_grading_parameters Demo.env
                   Demo.zeros Demo.zeros Demo.with_error Demo.plain
                   b1 b2 Demo.head D' G' P1' V1' P2' V2' R1')))))))).
Defined.

Lemma explicit_landmarks_silence_gamma_witness :
  let a := Demo.locals_of Demo.zeros Demo.landmark_and_gamma in
  let a' := Demo.locals_of Demo.zeros Demo.landmark_other_gamma in
  let b := Demo.locals_of Demo.zeros Demo.gamma_boundary in
  (parses Demo.zeros Demo.landmark_and_gamma a
   /\ supplied "l"%char Demo.landmark_and_gamma Demo.f_75_5
   /\ ~ equal_to Demo.f_75_5 0
   /\ differ_only_in gamma_options
        Demo.landmark_and_gamma Demo.landmark_other_gamma
   /\ parses Demo.zeros Demo.landmark_other_gamma a'
   /\ filter is_gamma_echo (fst (main Demo.zeros Demo.landmark_and_gamma))
      = []
   /\ main Demo.zeros Demo.landmark_other_gamma
      = main Demo.zeros Demo.landmark_and_gamma)
  /\ (parses Demo.zeros Demo.gamma_boundary b
      /\ filter is_gamma_echo (fst (main Demo.zeros Demo.gamma_boundary))
         <> []
      /\ verbose b = true
      /\ equal_to (channel_left b) 0 /\ equal_to (channel_right b) 0).
Proof.
  intros a a' b.
  assert (P : parses Demo.zeros Demo.landmark_and_gamma a) by reflexivity.
  assert (S : supplied "l"%char Demo.landmark_and_gamma Demo.f_75_5)
    by (exists "75.5"; split; reflexivity).
  assert (N : ~ equal_to Demo.f_75_5 0) by (intros H; discriminate H).
  assert (D : differ_only_in gamma_options
                Demo.landmark_and_gamma Demo.landmark_other_gamma).
  { unfold differ_only_in.
    repeat (apply Forall2_cons;
            [split;
             [reflexivity
             |first [left; reflexivity | right; cbn; auto 10]]|]).
    apply Forall2_nil. }
  assert (P' : parses Demo.zeros Demo.landmark_other_gamma a')
    by reflexivity.
  assert (Pb : parses Demo.zeros Demo.gamma_boundary b) by reflexivity.
  assert (Fb : filter is_gamma_echo
                 (fst (main Demo.zeros Demo.gamma_boundary)) <> [])
    by (vm_compute; discriminate).
  destruct (proj2 (explicit_landmarks_silence_gamma P)
              (or_introl (ex_intro _ _ (conj S N)))) as [F I].
  split.
  - exact (conj P (conj S (conj N (conj D (conj P'
             (conj F (I _ _ D P'))))))).
  - exact (conj Pb (conj Fb (proj1 (explicit_landmarks_silence_gamma Pb) Fb))).
Defined.

End Instances.

(** ** More on the argument loop *)

Section LoopEnds.

Context {C : Collaborators}.

Local Open Scope char_scope.

(** The loop over a command line in two parts. *)
Lemma parse_loop_app o1 : forall o2 a0 a,
  parse_loop o1 a0 = ([], Continue a) ->
  parse_loop (o1 ++ o2) a0 = parse_loop o2 a.
Proof.
  induction o1 as [|[c s] rest IH]; intros o2 a0 a H.
  - cbn in H. injection H as <-. reflexivity.
  - cbn [parse_loop app] in *.
    destruct (handle_option c s a0) as [t1 [a1|st]]; [|discriminate H].
    cbn [bind] in *.
    destruct (parse_loop rest a1) as [t2 o] eqn:P.
    injection H as Ht ->.
    apply app_eq_nil in Ht. destruct Ht as [-> ->].
    rewrite (IH o2 a1 a P).
    destruct (parse_loop o2 a) as [t3 o3]. reflexivity.
Qed.

Lemma handle_option_no_case c optarg a :
  has_case c = false ->
  handle_option c optarg a = ([Cerr usage_text], Halt (Exit 1)).
Proof.
  intros H. rewrite handle_option_cases.
  repeat match goal with
         | |- context [if (c =? ?k) then _ else _] =>
             destruct (Ascii.eqb_spec c k) as [->|_]
         end;
    try discriminate H.
  reflexivity.
Qed.

Lemma handle_option_throws c optarg a :
  takes_number c = true -> stof optarg = None ->
  handle_option c optarg a = ([], Halt Terminate).
Proof.
  intros H E. rewrite handle_option_cases. unfold stof_optarg.
  repeat match goal with
         | |- context [if (c =? ?k) then _ else _] =>
             destruct (Ascii.eqb_spec c k) as [->|?]
         end;
    try discriminate H; rewrite ?E; try reflexivity.
  exfalso. unfold takes_number in H. cbn [existsb] in H.
  repeat match type of H with
         | context [c =? ?k] =>
             destruct (Ascii.eqb_spec c k); [contradiction|]
         end.
  discriminate H.
Qed.

Lemma handle_option_ok c optarg a :
  option_ok (c, optarg) = true ->
  exists a', handle_option c optarg a = ([], Continue a').
Proof.
  unfold option_ok. cbn [fst snd]. intros H.
  apply andb_true_iff in H. destruct H as [Hc Hn].
  destruct (handle_option_outcome c optarg a) as [E|[E|[_ [T N]]]].
  - exact E.
  - rewrite handle_option_cases in E. unfold stof_optarg in E.
    repeat match type of E with
           | context [if (c =? ?k) then _ else _] =>
               destruct (Ascii.eqb_spec c k) as [->|?]
           end;
      try discriminate Hc;
      try (destruct (stof optarg); discriminate E);
      try discriminate E.
    exfalso. unfold has_case in Hc. cbn [existsb] in Hc.
    repeat match type of Hc with
           | context [c =? ?k] =>
               destruct (Ascii.eqb_spec c k); [contradiction|]
           end.
    discriminate Hc.
  - rewrite T, N in Hn. discriminate Hn.
Qed.

Lemma handle_option_continue c optarg a t a' :
  handle_option c optarg a = (t, Continue a') ->
  option_ok (c, optarg) = true.
Proof.
  intros H. unfold option_ok. cbn [fst snd].
  destruct (has_case c) eqn:Hc.
  - destruct (takes_number c) eqn:T; [|reflexivity].
    destruct (stof optarg) eqn:N; [reflexivity|].
    rewrite (@handle_option_throws c optarg a T N) in H. discriminate H.
  - rewrite (@handle_option_no_case c optarg a Hc) in H. discriminate H.
Qed.

Lemma parse_loop_continue opts : forall a0 t a,
  parse_loop opts a0 = (t, Continue a) -> forallb option_ok opts = true.
Proof.
  induction opts as [|[c s] rest IH]; intros a0 t a H; [reflexivity|].
  cbn [parse_loop] in H.
  destruct (handle_option c s a0) as [t1 [a1|st]] eqn:E; [|discriminate H].
  cbn [bind] in H. destruct (parse_loop rest a1) as [t2 o] eqn:P.
  injection H as _ ->.
  cbn [forallb]. rewrite (@handle_option_continue c s a0 t1 a1 E).
  exact (IH _ _ _ P).
Qed.

Lemma parse_loop_ok opts : forall a0,
  forallb option_ok opts = true ->
  exists a, parse_loop opts a0 = ([], Continue a).
Proof.
  induction opts as [|[c s] rest IH]; intros a0 H.
  - exists a0. reflexivity.
  - cbn [forallb] in H. apply andb_true_iff in H. destruct H as [H1 H2].
    destruct (@handle_option_ok c s a0 H1) as [a1 E].
    destruct (IH a1 H2) as [a P]. exists a.
    cbn [parse_loop]. rewrite E. cbn [bind]. rewrite P. reflexivity.
Qed.

End LoopEnds.

(** ** How the loop ends, and what counts on the command line *)

Section CommandLineFacts.

Context {C : Collaborators}.

Local Open Scope char_scope.

(** X1: an option without a [case] (an unknown option or a missing
    argument, which [getopt] reports as ['?']) ends the run with the
    usage text and exit code 1 as soon as the loop reaches it, whatever
    follows it on the command line. *)
Theorem unknown_option_prints_usage u pre c s post a :
  parses u pre a ->
  has_case c = false ->
  main u (pre ++ (c, s) :: post) = ([Cerr usage_text], Exit 1).
Proof.
  intros P H. unfold main, main_body.
  rewrite (@parse_loop_app _ pre _ _ _ P). cbn [parse_loop].
  rewrite (@handle_option_no_case _ c s a H). reflexivity.
Qed.

(** X2: a numeric argument that [std::stof] does not read ends the run
    by an uncaught exception as soon as the loop reaches it: nothing is
    printed, no usage text either, and no exit code is set, whatever
    follows it on the command line. *)
Theorem unreadable_number_terminates u pre c s post a :
  parses u pre a ->
  takes_number c = true ->
  stof s = None ->
  main u (pre ++ (c, s) :: post) = ([], Terminate).
Proof.
  intros P T N. unfold main, main_body.
  rewrite (@parse_loop_app _ pre _ _ _ P). cbn [parse_loop].
  rewrite (@handle_option_throws _ c s a T N). reflexivity.
Qed.

(** X3: the argument loop runs to its end exactly when every option on
    the command line has a [case] and every argument of a numeric option
    reads as a number. *)
Theorem loop_completes_iff u opts :
  (exists a, parses u opts a) <-> forallb option_ok opts = true.
Proof.
  split.
  - intros [a P]. exact (parse_loop_continue _ _ P).
  - intros H. exact (parse_loop_ok opts (initial u) H).
Qed.

Lemma last_arg_reads c opts s :
  forallb option_ok opts = true ->
  takes_number c = true ->
  last_arg c opts = Some s ->
  exists v, stof s = Some v.
Proof.
  intros H T L. apply last_arg_In in L.
  rewrite forallb_forall in H. specialize (H _ L).
  unfold option_ok in H. cbn [fst snd] in H. rewrite T in H.
  apply andb_true_iff in H. destruct H as [_ H]. cbn in H.
  destruct (stof s) as [v|]; [exists v; reflexivity|discriminate H].
Qed.

Lemma arg_float_agree c o1 o2 d :
  last_arg c o1 = last_arg c o2 ->
  forallb option_ok o1 = true ->
  takes_number c = true ->
  arg_float c o1 d = arg_float c o2 d.
Proof.
  intros H K T. destruct (last_arg c o1) as [s|] eqn:L.
  - destruct (last_arg_reads _ _ K T L) as [v E].
    rewrite (arg_float_last _ _ _ L E).
    symmetry. apply (arg_float_last _ _ _ (eq_sym H) E).
  - rewrite (arg_float_absent _ _ _ L).
    symmetry. apply arg_float_absent. symmetry. exact H.
Qed.

Lemma locals_ext (a b : locals) :
  binary a = binary b -> verbose a = verbose b ->
  input a = input b -> output a = output b -> ear a = ear b ->
  min a = min b -> max a = max b -> err a = err b ->
  channel_left a = channel_left b -> channel_right a = channel_right b ->
  gamma_scaling_left a = gamma_scaling_left b ->
  gamma_scaling_right a = gamma_scaling_right b ->
  a = b.
Proof.
  destruct a, b. cbn. intros. subst. reflexivity.
Qed.

(** X4: for every option the last occurrence counts, and the order of
    the options does not: two command lines that give every option the
    same last argument, and both get through the loop, leave the same
    locals and give the same run. *)
Theorem last_occurrence_decides u opts1 opts2 a1 a2 :
  (forall c, last_arg c opts1 = last_arg c opts2) ->
  parses u opts1 a1 ->
  parses u opts2 a2 ->
  a1 = a2 /\ main u opts1 = main u opts2.
Proof.
  intros H P1 P2.
  destruct (parse_loop_post _ _ P1) as [_ Q1].
  destruct (parse_loop_post _ _ P2) as [_ Q2].
  pose proof (parse_loop_continue _ _ P1) as K.
  assert (E : a1 = a2).
  { apply locals_ext.
    - rewrite (post_binary Q1), (post_binary Q2), !given_of_last_arg, H.
      reflexivity.
    - rewrite (post_verbose Q1), (post_verbose Q2), !given_of_last_arg, H.
      reflexivity.
    - rewrite (post_input Q1), (post_input Q2), !arg_str_of_last_arg, H.
      reflexivity.
    - rewrite (post_output Q1), (post_output Q2), !arg_str_of_last_arg, H.
      reflexivity.
    - rewrite (post_ear Q1), (post_ear Q2), !arg_str_of_last_arg, H.
      reflexivity.
    - rewrite (post_min Q1), (post_min Q2).
      apply arg_float_agree; [apply H|exact K|reflexivity].
    - rewrite (post_max Q1), (post_max Q2).
      apply arg_float_agree; [apply H|exact K|reflexivity].
    - rewrite (post_err Q1), (post_err Q2).
      apply arg_float_agree; [apply H|exact K|reflexivity].
    - rewrite (post_channel_left Q1), (post_channel_left Q2).
      apply arg_float_agree; [apply H|exact K|reflexivity].
    - rewrite (post_channel_right Q1), (post_channel_right Q2).
      apply arg_float_agree; [apply H|exact K|reflexivity].
    - rewrite (post_gamma_scaling_left Q1), (post_gamma_scaling_left Q2).
      apply arg_float_agree; [apply H|exact K|reflexivity].
    - rewrite (post_gamma_scaling_right Q1), (post_gamma_scaling_right Q2).
      apply arg_float_agree; [apply H|exact K|reflexivity]. }
  split; [exact E|].
  rewrite (main_parses P1), (main_parses P2), E. reflexivity.
Qed.

(** X5: without [-g] the left gamma factor of the run is the [float]
    0.15, and without [-h] the right one is: the initial value 2 is above
    1.9 and falls to the default. *)
Theorem unset_gamma_is_0_15 u opts a :
  parses u opts a ->
  (given "g" opts = false ->
   gamma_scaling_left (default_parameters a) = f_0_15)
  /\ (given "h" opts = false ->
      gamma_scaling_right (default_parameters a) = f_0_15).
Proof.
  intros P. destruct (parse_loop_post _ _ P) as [_ Q]. split; intros G.
  - rewrite default_parameters_gamma_left, (post_gamma_scaling_left Q).
    rewrite (arg_float_absent _ _ _ (given_false_last_arg _ _ G)).
    reflexivity.
  - rewrite default_parameters_gamma_right, (post_gamma_scaling_right Q).
    rewrite (arg_float_absent _ _ _ (given_false_last_arg _ _ G)).
    reflexivity.
Qed.

End CommandLineFacts.

(** X6: the three tests of a [float] variable against a [double]
    literal decide the exact comparisons with 1/1000000, 19/10 and 0, for
    every [float]: neither the rounding of the literals [1e-6] and [1.9]
    nor the promotion of the variable changes an outcome; a NaN fails
    all three. *)
Theorem tests_are_exact (x : float) :
  (lt_lit x d_1e_6 = true <-> below x (1 # 1000000))
  /\ (gt_lit x d_1_9 = true <-> above x (19 # 10))
  /\ (eq_lit x d_0 = true <-> equal_to x 0)
  /\ (datum x = S754_nan ->
      lt_lit x d_1e_6 = false /\ gt_lit x d_1_9 = false
      /\ eq_lit x d_0 = false).
Proof.
  split; [apply lt_lit_1e_6|]. split; [apply gt_lit_1_9|].
  split; [apply eq_lit_0|].
  destruct x as [d V]. cbn [datum]. intros ->. repeat split.
Qed.

(** ** The shape of a whole run *)

Section WholeRun.

Context {C : Collaborators}.

Local Open Scope list_scope.

(** The five ways a run can go. *)
Lemma main_shapes u opts :
  main u opts = ([Cerr usage_text], Exit 1)
  \/ main u opts = ([], Terminate)
  \/ (exists a what,
        parses u opts a /\ invalid_input a = false
        /\ read empty_mesh (input a) = IOException what
        /\ main u opts
           = (echo_input_trace (default_parameters a)
                ++ [CallRead (input a);
                    Cerr ("Failed to read mesh: " ++ what)],
              Exit 1))
  \/ (exists a m,
        parses u opts a /\ invalid_input a = false
        /\ read empty_mesh (input a) = Returned m
        /\ let a' := default_parameters a in
           let m' := uniform_remeshing m (min a) 10%N true in
           let flags := {| use_binary := binary a |} in
           main u opts
           = (echo_input_trace a'
                ++ [CallRead (input a); CallRemesh m (min a) 10%N true]
                ++ echo_stats_trace a' (to_int (n_faces m)) m'
                ++ CallWrite m' (output a) flags
                :: match write m' (output a) flags with
                   | Returned _ => []
                   | IOException what =>
                       [Cerr ("Failed to write mesh: " ++ what)]
                   end,
              match write m' (output a) flags with
              | Returned _ => Exit 0
              | IOException _ => Exit 1
              end)).
Proof.
  destruct (main_cases u opts) as [(a & P & E)|[E|[E _]]];
    [|left; exact E|right; left; exact E].
  destruct (invalid_input a) eqn:V.
  - left. rewrite E. apply after_parse_invalid. exact V.
  - right. right.
    destruct (read empty_mesh (input a)) as [m|what] eqn:R.
    + right. exists a, m. repeat split; try assumption.
      rewrite E. apply (after_parse_read_ok a V R).
    + left. exists a, what. repeat split; try assumption.
      rewrite E. apply (after_parse_read_fails a V R).
Qed.

Lemma echo_input_quiet a :
  verbose a = false -> echo_input_trace a = [].
Proof.
  intros H. unfold echo_input_trace, echo_input. rewrite H. reflexivity.
Qed.

Lemma echo_stats_quiet a n m :
  verbose a = false -> echo_stats_trace a n m = [].
Proof.
  intros H. unfold echo_stats_trace, echo_stats. rewrite H. reflexivity.
Qed.

Lemma verbose_of_command_line u opts a :
  parses u opts a ->
  verbose (default_parameters a) = given "v"%char opts.
Proof.
  intros P. destruct (parse_loop_post _ _ P) as [_ Q].
  destruct (default_parameters_keeps a) as (_ & -> & _).
  rewrite (post_verbose Q). apply orb_false_r.
Qed.

(** X7: the exit code is 0 exactly when the loop runs to its end, the
    check passes, the reader returns a mesh and the writer returns after
    it got the uniformly remeshed mesh. *)
Theorem exit_0_iff u opts :
  snd (main u opts) = Exit 0
  <-> exists a m,
        parses u opts a /\ invalid_input a = false
        /\ read empty_mesh (input a) = Returned m
        /\ write (uniform_remeshing m (min a) 10%N true) (output a)
                 {| use_binary := binary a |} = Returned tt.
Proof.
  split.
  - intros H.
    destruct (main_shapes u opts)
      as [E|[E|[(a & what & _ & _ & _ & E)|(a & m & P & V & R & E)]]];
      try (rewrite E in H; discriminate H).
    cbv zeta in E. rewrite E in H. cbn [snd] in H.
    exists a, m. repeat split; try assumption.
    destruct (write _ _ _) as [[]|what]; [reflexivity|discriminate H].
  - intros (a & m & P & V & R & W). exact (success_exits_0 P V R W).
Qed.

(** X8: without [-v] the program writes nothing to [std::cout], however
    the run goes. *)
Theorem quiet_without_v u opts :
  given "v"%char opts = false ->
  filter (@is_cout Mesh) (fst (main u opts)) = [].
Proof.
  intros G.
  destruct (main_shapes u opts)
    as [E|[E|[(a & what & P & _ & _ & E)|(a & m & P & _ & _ & E)]]];
    try (rewrite E; reflexivity).
  - rewrite E. cbn [fst].
    rewrite echo_input_quiet
      by (rewrite (verbose_of_command_line P); exact G).
    reflexivity.
  - cbv zeta in E. rewrite E. cbn [fst].
    rewrite echo_input_quiet, echo_stats_quiet
      by (rewrite (verbose_of_command_line P); exact G).
    cbn [app filter is_cout]. destruct (write _ _ _); reflexivity.
Qed.

(** X9: [std::cerr] is written only when the run fails.  With exit
    code 0 nothing goes to [std::cerr]; with exit code 1 exactly one
    message does, as the last thing the program does; no other exit code
    occurs; and a run that dies in [std::stof] has printed nothing. *)
Theorem stderr_only_on_failure u opts :
  match snd (main u opts) with
  | Exit 0 => filter (@is_cerr Mesh) (fst (main u opts)) = []
  | Exit 1 =>
      exists t text,
        fst (main u opts) = t ++ [Cerr text]
        /\ filter (@is_cerr Mesh) t = []
  | Exit _ => False
  | Terminate => fst (main u opts) = []
  end.
Proof.
  destruct (main_shapes u opts)
    as [E|[E|[(a & what & _ & _ & _ & E)|(a & m & _ & _ & _ & E)]]].
  - rewrite E. exists [], usage_text. split; reflexivity.
  - rewrite E. reflexivity.
  - rewrite E. cbn [fst snd].
    exists (echo_input_trace (default_parameters a) ++ [CallRead (input a)]),
      ("Failed to read mesh: " ++ what)%string.
    split; [rewrite <- app_assoc; reflexivity|].
    rewrite filter_app, (filter_only_cout (@is_cerr Mesh))
      by (reflexivity || apply echo_input_only_cout).
    reflexivity.
  - cbv zeta in E. rewrite E. cbn [fst snd].
    set (m' := uniform_remeshing m (min a) 10%N true).
    set (flags := {| use_binary := binary a |}).
    assert (F : filter (@is_cerr Mesh)
                  (echo_input_trace (default_parameters a)
                   ++ [CallRead (input a); CallRemesh m (min a) 10%N true]
                   ++ echo_stats_trace (default_parameters a)
                        (to_int (n_faces m)) m'
                   ++ [CallWrite m' (output a) flags]) = []).
    { rewrite !filter_app.
      rewrite (filter_only_cout (@is_cerr Mesh))
        by (reflexivity || apply echo_input_only_cout).
      rewrite (filter_only_cout (@is_cerr Mesh) (echo_stats_trace _ _ _))
        by (reflexivity || apply echo_stats_only_cout).
      reflexivity. }
    destruct (write m' (output a) flags) as [r|what].
    + exact F.
    + eexists _, _. split; [|exact F].
      rewrite <- !app_assoc. reflexivity.
Qed.

(** X10: the calls into the mesh library come in one order and at most
    once each: no call at all, or the reader alone (and then the exit
    code is 1), or the reader, the remesher on the mesh that was read,
    and the writer on the mesh the remesher returned. *)
Theorem calls_in_order u opts :
  filter (@is_call Mesh) (fst (main u opts)) = []
  \/ (exists p,
        filter (@is_call Mesh) (fst (main u opts)) = [CallRead p]
        /\ snd (main u opts) = Exit 1)
  \/ (exists p m v q flags,
        filter (@is_call Mesh) (fst (main u opts))
        = [CallRead p; CallRemesh m v 10%N true;
           CallWrite (uniform_remeshing m v 10%N true) q flags]
        /\ read empty_mesh p = Returned m).
Proof.
  destruct (main_shapes u opts)
    as [E|[E|[(a & what & _ & _ & _ & E)|(a & m & _ & _ & R & E)]]].
  - left. rewrite E. reflexivity.
  - left. rewrite E. reflexivity.
  - right. left. exists (input a). rewrite E. cbn [fst snd].
    split; [|reflexivity].
    rewrite filter_app, (filter_only_cout (@is_call Mesh))
      by (reflexivity || apply echo_input_only_cout).
    reflexivity.
  - right. right.
    exists (input a), m, (min a), (output a), {| use_binary := binary a |}.
    split; [|exact R].
    cbv zeta in E. rewrite E. cbn [fst]. rewrite !filter_app.
    rewrite (filter_only_cout (@is_call Mesh))
      by (reflexivity || apply echo_input_only_cout).
    rewrite (filter_only_cout (@is_call Mesh) (echo_stats_trace _ _ _))
      by (reflexivity || apply echo_stats_only_cout).
    destruct (write _ _ _); reflexivity.
Qed.

(** X11: in a valid run the reader is called with the argument of the
    last [-i], and the writer with the argument of the last [-o] and
    with [use_binary] set exactly when [-b] is on the command line. *)
Theorem paths_and_binary_flag u opts a m :
  parses u opts a ->
  invalid_input a = false ->
  read empty_mesh (input a) = Returned m ->
  filter (@is_read Mesh) (fst (main u opts))
  = [CallRead (last_arg "i"%char opts)]
  /\ filter (@is_write Mesh) (fst (main u opts))
     = [CallWrite (uniform_remeshing m (min a) 10%N true)
          (last_arg "o"%char opts)
          {| use_binary := given "b"%char opts |}].
Proof.
  intros P V R. destruct (parse_loop_post _ _ P) as [_ Q].
  assert (Hi : input a = last_arg "i"%char opts).
  { rewrite (post_input Q), arg_str_of_last_arg.
    destruct (last_arg "i"%char opts); reflexivity. }
  assert (Ho : output a = last_arg "o"%char opts).
  { rewrite (post_output Q), arg_str_of_last_arg.
    destruct (last_arg "o"%char opts); reflexivity. }
  assert (Hb : binary a = given "b"%char opts).
  { rewrite (post_binary Q). apply orb_false_r. }
  rewrite (main_parses P), (after_parse_read_ok a V R).
  cbv zeta. cbn [fst]. rewrite !filter_app.
  rewrite (filter_only_cout (@is_read Mesh)),
    (filter_only_cout (@is_write Mesh))
    by (reflexivity || apply echo_input_only_cout).
  rewrite (filter_only_cout (@is_read Mesh) (echo_stats_trace _ _ _)),
    (filter_only_cout (@is_write Mesh) (echo_stats_trace _ _ _))
    by (reflexivity || apply echo_stats_only_cout).
  rewrite Hi, Ho, Hb.
  destruct (write _ _ _); split; reflexivity.
Qed.

End WholeRun.

(** ** What the check lets through, and what the side is used for *)

Section CheckAndSide.

Context {C : Collaborators}.

Local Open Scope list_scope.

Lemma is_null_of_command_line c opts :
  is_null (arg_str c opts None) = negb (given c opts).
Proof.
  rewrite arg_str_of_last_arg, given_of_last_arg.
  destruct (last_arg c opts); reflexivity.
Qed.

Lemma is_null_false_iff c opts :
  is_null (arg_str c opts None) = false <-> last_arg c opts <> None.
Proof.
  rewrite arg_str_of_last_arg.
  destruct (last_arg c opts); cbn; split; congruence.
Qed.

Lemma lt_lit_false_iff (x : float) :
  lt_lit x d_1e_6 = false <-> ~ below x (1 # 1000000).
Proof.
  rewrite <- lt_lit_1e_6. destruct (lt_lit x d_1e_6); split; congruence.
Qed.

(** X12: once the loop is through, the reader is called exactly when
    the side, the input path and the output path are on the command
    line and neither [min] nor [max] is below 1/1000000.  Nothing else
    is checked: a maximum below the minimum, an infinite length and a
    NaN all pass. *)
Theorem check_accepts_iff u opts a :
  parses u opts a ->
  existsb (@is_read Mesh) (fst (main u opts)) = true
  <-> (~ below (min a) (1 # 1000000) /\ ~ below (max a) (1 # 1000000)
       /\ last_arg "s"%char opts <> None
       /\ last_arg "i"%char opts <> None
       /\ last_arg "o"%char opts <> None).
Proof.
  intros P. destruct (parse_loop_post _ _ P) as [_ Q].
  assert (V : invalid_input a = false
              <-> (~ below (min a) (1 # 1000000)
                   /\ ~ below (max a) (1 # 1000000)
                   /\ last_arg "s"%char opts <> None
                   /\ last_arg "i"%char opts <> None
                   /\ last_arg "o"%char opts <> None)).
  { unfold invalid_input. rewrite !orb_false_iff.
    rewrite !lt_lit_false_iff.
    rewrite (post_ear Q), (post_input Q), (post_output Q).
    cbn [ear input output initial]. rewrite !is_null_false_iff. tauto. }
  rewrite <- V. rewrite (main_parses P).
  destruct (invalid_input a) eqn:I.
  - rewrite after_parse_invalid by exact I. cbn. split; discriminate.
  - split; [reflexivity|]. intros _.
    destruct (read empty_mesh (input a)) as [m|what] eqn:R.
    + rewrite (after_parse_read_ok a I R). cbv zeta. cbn [fst].
      rewrite !existsb_app. cbn [existsb is_read]. cbn [orb].
      apply orb_true_r.
    + rewrite (after_parse_read_fails a I R). cbn [fst].
      rewrite existsb_app. cbn [existsb is_read orb].
      apply orb_true_r.
Qed.

(** The run after the check, as the echo followed by the work. *)
Lemma after_parse_work a :
  after_parse a
  = bind (check_input a)
      (fun _ => bind (echo_input (default_parameters a))
                  (fun _ => work (default_parameters a))).
Proof. reflexivity. Qed.

Lemma valid_run_work a :
  invalid_input a = false ->
  run (after_parse a)
  = (echo_input_trace (default_parameters a)
       ++ fst (run (work (default_parameters a))),
     snd (run (work (default_parameters a)))).
Proof.
  intros V. rewrite after_parse_work. unfold check_input. rewrite V.
  cbn [bind ret app]. rewrite echo_input_continues. cbn [bind].
  destruct (work (default_parameters a)) as [t [[]|st]]. reflexivity.
Qed.

Lemma work_ext a b :
  binary a = binary b -> verbose a = verbose b ->
  input a = input b -> output a = output b -> min a = min b ->
  work a = work b.
Proof.
  intros Hb Hv Hi Ho Hm.
  unfold work, load_input, remeshing, echo_stats, write_output.
  rewrite Hb, Hv, Hi, Ho, Hm. reflexivity.
Qed.

Lemma default_parameters_same_but_ear a b :
  same_but_ear a b ->
  same_but_ear (default_parameters a) (default_parameters b).
Proof.
  destruct a as [bi ve ip op mi ma er cl cr gl gr ea].
  destruct b as [bi' ve' ip' op' mi' ma' er' cl' cr' gl' gr' ea'].
  unfold same_but_ear. cbn -[lt_lit gt_lit].
  intros (<- & <- & <- & <- & He & <- & <- & <- & <- & <- & <- & <-).
  unfold default_parameters. cbn -[lt_lit gt_lit].
  destruct (lt_lit er d_1e_6); cbn -[lt_lit gt_lit];
    destruct (gt_lit gl d_1_9); cbn -[lt_lit gt_lit];
    destruct (gt_lit gr d_1_9); cbn -[lt_lit gt_lit];
    repeat split; exact He.
Qed.

Lemma echo_input_trace_same_but_ear a b :
  same_but_ear a b -> verbose a = false ->
  echo_input_trace a = echo_input_trace b.
Proof.
  intros S H. destruct S as (_ & Hv & _).
  rewrite (echo_input_quiet a H), (echo_input_quiet b); [reflexivity|].
  rewrite <- Hv. exact H.
Qed.

Lemma differ_side_option_ok o1 o2 :
  differ_only_in side_option o1 o2 ->
  forallb option_ok o1 = forallb option_ok o2.
Proof.
  intros D. induction D as [|[c1 s1] [c2 s2] r1 r2 [Hf Hs] D IH];
    [reflexivity|].
  cbn in Hf, Hs. subst c2. cbn [forallb]. rewrite IH. f_equal.
  destruct Hs as [->|[<-|[]]]; reflexivity.
Qed.

Lemma differ_side_same_locals u opts opts' a a' :
  differ_only_in side_option opts opts' ->
  parses u opts a -> parses u opts' a' -> same_but_ear a a'.
Proof.
  intros D P P'.
  destruct (parse_loop_post _ _ P) as [_ Q].
  destruct (parse_loop_post _ _ P') as [_ Q'].
  unfold same_but_ear.
  rewrite (post_binary Q), (post_binary Q'), (post_verbose Q),
    (post_verbose Q'), (post_input Q), (post_input Q'), (post_output Q),
    (post_output Q'), (post_ear Q), (post_ear Q'), (post_min Q),
    (post_min Q'), (post_max Q), (post_max Q'), (post_err Q),
    (post_err Q'), (post_channel_left Q), (post_channel_left Q'),
    (post_channel_right Q), (post_channel_right Q'),
    (post_gamma_scaling_left Q), (post_gamma_scaling_left Q'),
    (post_gamma_scaling_right Q), (post_gamma_scaling_right Q').
  cbn [ear initial]. rewrite !is_null_of_command_line.
  rewrite !(differ_given _ D).
  repeat split;
    first [ eapply differ_arg_str | eapply differ_arg_float ];
    first [ exact D | cbn; intuition discriminate ].
Qed.

(** X13: the side is never compared with ['left'] or ['right'].
    Replacing the arguments of [-s] by any other strings, the loop still
    runs to its end, the exit status and the calls into the mesh library
    stay the same, and without [-v] the whole run does. *)
Theorem side_is_not_validated u opts opts' a :
  differ_only_in side_option opts opts' ->
  parses u opts a ->
  exists a',
    parses u opts' a'
    /\ snd (main u opts') = snd (main u opts)
    /\ filter (@is_call Mesh) (fst (main u opts'))
       = filter (@is_call Mesh) (fst (main u opts))
    /\ (given "v"%char opts = false -> main u opts' = main u opts).
Proof.
  intros D P.
  assert (K : forallb option_ok opts' = true).
  { rewrite <- (differ_side_option_ok D).
    exact (parse_loop_continue _ _ P). }
  destruct (parse_loop_ok opts' (initial u) K) as [a' P'].
  exists a'. split; [exact P'|].
  pose proof (differ_side_same_locals D P P') as S.
  pose proof (default_parameters_same_but_ear S) as S'.
  assert (V : invalid_input a' = invalid_input a).
  { destruct S as (_ & _ & Hi & Ho & He & Hm & Hx & _).
    unfold invalid_input. rewrite Hi, Ho, He, Hm, Hx. reflexivity. }
  rewrite (main_parses P), (main_parses P').
  destruct (invalid_input a) eqn:I.
  - rewrite !after_parse_invalid by assumption.
    repeat split; reflexivity.
  - rewrite !valid_run_work by assumption.
    assert (W : work (default_parameters a') = work (default_parameters a)).
    { destruct S' as (Hb & Hv & Hi & Ho & _ & Hm & _).
      symmetry. apply work_ext; assumption. }
    rewrite W. cbn [fst snd]. split; [reflexivity|]. split.
    + rewrite !filter_app.
      rewrite !(filter_only_cout (@is_call Mesh) (echo_input_trace _))
        by (reflexivity || apply echo_input_only_cout).
      reflexivity.
    + intros G. f_equal. f_equal. symmetry.
      apply echo_input_trace_same_but_ear; [exact S'|].
      rewrite (verbose_of_command_line P). exact G.
Qed.

(** X14: in verbose mode a valid run reports the face count of the mesh
    it read, narrowed to [int], and the face count of the remeshed mesh
    as it is.  The count before remeshing is the true one when it is
    below 2^31, and is negative from 2^31 up to 2^32. *)
Theorem face_counts_reported u opts a m :
  parses u opts a ->
  invalid_input a = false ->
  read empty_mesh (input a) = Returned m ->
  given "v"%char opts = true ->
  let m' := uniform_remeshing m (min a) 10%N true in
  In (Cout [Text (nl ++ "Faces before remeshing: ");
            Int (to_int (n_faces m))]) (fst (main u opts))
  /\ In (Cout [Text "Faces after remeshing:  "; Size (n_faces m')])
        (fst (main u opts))
  /\ ((n_faces m < 2 ^ 31)%N -> to_int (n_faces m) = Z.of_N (n_faces m))
  /\ ((2 ^ 31 <= n_faces m < 2 ^ 32)%N -> (to_int (n_faces m) < 0)%Z).
Proof.
  intros P V R G m'.
  assert (Hv : verbose (default_parameters a) = true)
    by (rewrite (verbose_of_command_line P); exact G).
  rewrite (main_parses P), (after_parse_read_ok a V R).
  cbv zeta. cbn [fst]. fold m'.
  assert (S : echo_stats_trace (default_parameters a)
                (to_int (n_faces m)) m'
              = [Cout [Text (nl ++ "Faces before remeshing: ");
                       Int (to_int (n_faces m))];
                 Cout [Text "Faces after remeshing:  ";
                       Size (n_faces m')]]).
  { unfold echo_stats_trace, echo_stats. rewrite Hv. reflexivity. }
  rewrite S. repeat split.
  - apply in_or_app. right. cbn. auto.
  - apply in_or_app. right. cbn. auto.
  - intros H. unfold to_int.
    change (2 ^ 31)%N with 2147483648%N in H.
    change (2 ^ 31)%Z with 2147483648%Z.
    change (2 ^ 32)%Z with 4294967296%Z.
    rewrite Z.mod_small by lia. lia.
  - intros H. unfold to_int.
    change (2 ^ 31)%N with 2147483648%N in H.
    change (2 ^ 32)%N with 4294967296%N in H.
    change (2 ^ 31)%Z with 2147483648%Z.
    change (2 ^ 32)%Z with 4294967296%Z.
    pose proof (Z.mod_pos_bound (Z.of_N (n_faces m) + 2147483648)
                  4294967296 eq_refl) as B.
    assert (E : ((Z.of_N (n_faces m) + 2147483648) mod 4294967296
                 = Z.of_N (n_faces m) + 2147483648 - 4294967296)%Z).
    { symmetry. apply (Z.mod_unique _ _ 1); lia. }
    lia.
Qed.

End CheckAndSide.

(** ** More concrete command lines *)

Section MoreInstances.

Local Existing Instance Demo.env.

Lemma unknown_option_prints_usage_witness :
  parses Demo.zeros Demo.before_unknown
    (Demo.locals_of Demo.zeros Demo.before_unknown)
  /\ has_case "?"%char = false
  /\ main Demo.zeros
       (Demo.before_unknown ++ ("?"%char, "") :: Demo.after_unknown)
     = ([Cerr usage_text], Exit 1).
Proof.
  assert (P : parses Demo.zeros Demo.before_unknown
                (Demo.locals_of Demo.zeros Demo.before_unknown))
    by reflexivity.
  assert (H : has_case "?"%char = false) by reflexivity.
  exact (conj P (conj H
           (@unknown_option_prints_usage Demo.env Demo.zeros
              Demo.before_unknown "?"%char "" Demo.after_unknown _ P H))).
Defined.

Lemma unreadable_number_terminates_witness :
  parses Demo.zeros Demo.before_unreadable
    (Demo.locals_of Demo.zeros Demo.before_unreadable)
  /\ takes_number "x"%char = true
  /\ stof "abc" = None
  /\ main Demo.zeros
       (Demo.before_unreadable ++ ("x"%char, "abc") :: Demo.after_unreadable)
     = ([], Terminate).
Proof.
  assert (P : parses Demo.zeros Demo.before_unreadable
                (Demo.locals_of Demo.zeros Demo.before_unreadable))
    by reflexivity.
  assert (T : takes_number "x"%char = true) by reflexivity.
  assert (N : stof "abc" = None) by reflexivity.
  exact (conj P (conj T (conj N
           (@unreadable_number_terminates Demo.env Demo.zeros
              Demo.before_unreadable "x"%char "abc" Demo.after_unreadable
              _ P T N)))).
Defined.

Lemma last_occurrence_decides_witness :
  (forall c, last_arg c Demo.shuffled = last_arg c Demo.plain)
  /\ parses Demo.zeros Demo.shuffled
       (Demo.locals_of Demo.zeros Demo.shuffled)
  /\ parses Demo.zeros Demo.plain (Demo.locals_of Demo.zeros Demo.plain)
  /\ Demo.locals_of Demo.zeros Demo.shuffled
     = Demo.locals_of Demo.zeros Demo.plain
  /\ main Demo.zeros Demo.shuffled = main Demo.zeros Demo.plain.
Proof.
  assert (H : forall c, last_arg c Demo.shuffled = last_arg c Demo.plain).
  { intros c. destruct c as [[] [] [] [] [] [] [] []]; reflexivity. }
  assert (P1 : parses Demo.zeros Demo.shuffled
                 (Demo.locals_of Demo.zeros Demo.shuffled)) by reflexivity.
  assert (P2 : parses Demo.zeros Demo.plain
                 (Demo.locals_of Demo.zeros Demo.plain)) by reflexivity.
  exact (conj H (conj P1 (conj P2
           (@last_occurrence_decides Demo.env Demo.zeros
              Demo.shuffled Demo.plain _ _ H P1 P2)))).
Defined.

Lemma unset_gamma_is_0_15_witness :
  let a := Demo.locals_of Demo.zeros Demo.plain in
  parses Demo.zeros Demo.plain a
  /\ given "g"%char Demo.plain = false
  /\ given "h"%char Demo.plain = false
  /\ gamma_scaling_left (default_parameters a) = f_0_15
  /\ gamma_scaling_right (default_parameters a) = f_0_15.
Proof.
  intros a.
  assert (P : parses Demo.zeros Demo.plain a) by reflexivity.
  assert (G : given "g"%char Demo.plain = false) by reflexivity.
  assert (H : given "h"%char Demo.plain = false) by reflexivity.
  pose proof (@unset_gamma_is_0_15 Demo.env Demo.zeros Demo.plain a P)
    as [L R].
  exact (conj P (conj G (conj H (conj (L G) (R H))))).
Defined.

Lemma quiet_without_v_witness :
  given "v"%char Demo.plain = false
  /\ snd (main Demo.zeros Demo.plain) = Exit 0
  /\ filter (@is_cout Mesh) (fst (main Demo.zeros Demo.plain)) = [].
Proof.
  assert (G : given "v"%char Demo.plain = false) by reflexivity.
  assert (E : snd (main Demo.zeros Demo.plain) = Exit 0) by reflexivity.
  exact (conj G (conj E
           (@quiet_without_v Demo.env Demo.zeros Demo.plain G))).
Defined.

Lemma paths_and_binary_flag_witness :
  let a := Demo.locals_of Demo.zeros Demo.binary_output in
  parses Demo.zeros Demo.binary_output a
  /\ invalid_input a = false
  /\ read empty_mesh (input a) = Returned Demo.head
  /\ filter (@is_read Mesh) (fst (main Demo.zeros Demo.binary_output))
     = [CallRead (Some "head.ply")]
  /\ filter (@is_write Mesh) (fst (main Demo.zeros Demo.binary_output))
     = [CallWrite (Demo.demo_remeshing Demo.head Demo.f_0_5 10%N true)
          (Some "out.ply") {| use_binary := true |}].
Proof.
  intros a.
  assert (P : parses Demo.zeros Demo.binary_output a) by reflexivity.
  assert (V : invalid_input a = false) by reflexivity.
  assert (R : read empty_mesh (input a) = Returned Demo.head)
    by reflexivity.
  exact (conj P (conj V (conj R
           (@paths_and_binary_flag Demo.env Demo.zeros Demo.binary_output
              a Demo.head P V R)))).
Defined.

Lemma check_accepts_iff_witness :
  let a := Demo.locals_of Demo.zeros Demo.nan_min in
  let b := Demo.locals_of Demo.zeros Demo.max_below_min in
  (parses Demo.zeros Demo.nan_min a
   /\ datum (min a) = S754_nan
   /\ existsb (@is_read Mesh) (fst (main Demo.zeros Demo.nan_min)) = true)
  /\ (parses Demo.zeros Demo.max_below_min b
      /\ min b = Demo.f_10 /\ max b = Demo.f_0_5
      /\ existsb (@is_read Mesh) (fst (main Demo.zeros Demo.max_below_min))
         = true).
Proof.
  intros a b.
  assert (Pa : parses Demo.zeros Demo.nan_min a) by reflexivity.
  assert (Pb : parses Demo.zeros Demo.max_below_min b) by reflexivity.
  split.
  - refine (conj Pa (conj eq_refl _)).
    apply (proj2 (@check_accepts_iff Demo.env Demo.zeros Demo.nan_min a Pa)).
    repeat split; discriminate.
  - refine (conj Pb (conj eq_refl (conj eq_refl _))).
    apply (proj2 (@check_accepts_iff Demo.env Demo.zeros
                    Demo.max_below_min b Pb)).
    repeat split; discriminate.
Defined.

Lemma side_is_not_validated_witness :
  let a := Demo.locals_of Demo.zeros Demo.plain in
  differ_only_in side_option Demo.plain Demo.odd_side
  /\ parses Demo.zeros Demo.plain a
  /\ exists a',
      parses Demo.zeros Demo.odd_side a'
      /\ snd (main Demo.zeros Demo.odd_side)
         = snd (main Demo.zeros Demo.plain)
      /\ filter (@is_call Mesh) (fst (main Demo.zeros Demo.odd_side))
         = filter (@is_call Mesh) (fst (main Demo.zeros Demo.plain))
      /\ (given "v"%char Demo.plain = false ->
          main Demo.zeros Demo.odd_side = main Demo.zeros Demo.plain).
Proof.
  intros a.
  assert (D : differ_only_in side_option Demo.plain Demo.odd_side).
  { unfold differ_only_in.
    repeat (apply Forall2_cons;
            [split;
             [reflexivity
             |first [left; reflexivity | right; cbn; auto 10]]|]).
    apply Forall2_nil. }
  assert (P : parses Demo.zeros Demo.plain a) by reflexivity.
  exact (conj D (conj P
           (@side_is_not_validated Demo.env Demo.zeros
              Demo.plain Demo.odd_side a D P))).
Defined.

Lemma face_counts_reported_witness :
  let a := Demo.locals_of Demo.zeros Demo.usage_example in
  parses Demo.zeros Demo.usage_example a
  /\ invalid_input a = false
  /\ read empty_mesh (input a) = Returned Demo.head
  /\ given "v"%char Demo.usage_example = true
  /\ In (Cout [Text (nl ++ "Faces before remeshing: "); Int 1000])
        (fst (main Demo.zeros Demo.usage_example))
  /\ In (Cout [Text "Faces after remeshing:  "; Size 10000])
        (fst (main Demo.zeros Demo.usage_example)).
Proof.
  intros a.
  assert (P : parses Demo.zeros Demo.usage_example a) by reflexivity.
  assert (V : invalid_input a = false) by reflexivity.
  assert (R : read empty_mesh (input a) = Returned Demo.head)
    by reflexivity.
  assert (G : given "v"%char Demo.usage_example = true) by reflexivity.
  pose proof (@face_counts_reported Demo.env Demo.zeros Demo.usage_example
                a Demo.head P V R G) as (B & A & _).
  exact (conj P (conj V (conj R (conj G (conj B A))))).
Defined.

End MoreInstances.
